(** * SpellChecker.js: a shallow embedding and its verified properties

    The development follows [src/components/SpellChecker.js]:
    - JavaScript strings are sequences of UTF-16 code units;
    - the ordered [Set] of candidates is a duplicate-free list in
      insertion order (the order [Set.prototype.forEach] visits);
    - the dynamic-programming table of [levenshtein] is a list of rows,
      read and written by index;
    - the module-level cache [__wordsDataset] and the fire-and-forget
      load are explicit state, threaded through [getCorrection];
    - [String.prototype.toLowerCase] and [toUpperCase] belong to the
      platform, not to the file: the orchestrator is parametric in them. *)

From Stdlib Require Import ZArith NArith Lia Bool.
From Stdlib Require Import Strings.String Strings.Ascii.
From stdpp Require Import base option list.

Local Open Scope Z_scope.

(** ** Strings *)

Abbreviation code_unit := N (only parsing).
Abbreviation jsstring := (list code_unit) (only parsing).

(** A string literal of the source, as its code units. *)
Definition js (s : string) : jsstring :=
  List.map N_of_ascii (list_ascii_of_string s).

(** ** levenshtein (SpellChecker.js, lines 92-110) *)

Abbreviation table := (list (list Z)) (only parsing).

(** [dp[i][j]] as the loops read it.  Every read the loops make lies
    inside the table ([fill_cell_reads_defined] below), so the default,
    which stands for [undefined], is never used. *)
Definition cell (dp : table) (i j : nat) : Z :=
  default 0 (dp !! i ≫= (.!! j)).

(** [dp[i][j] = v].  Every write lies inside the table as well: none
    extends a row. *)
Definition store (dp : table) (i j : nat) (v : Z) : table :=
  alter (<[j := v]>) i dp.

(** [a[i - 1] === b[j - 1] ? 0 : 1] *)
Definition cost (a b : jsstring) (i j : nat) : Z :=
  if decide (a !! (i - 1)%nat = b !! (j - 1)%nat) then 0 else 1.

(** The body of the inner loop: [dp[i][j] = Math.min(...)]. *)
Definition fill_cell (a b : jsstring) (i : nat) (dp : table) (j : nat) : table :=
  store dp i j
    (Z.min (Z.min (cell dp (i - 1) j + 1) (cell dp i (j - 1) + 1))
           (cell dp (i - 1) (j - 1) + cost a b i j)).

(** The table when the function returns.  Each row is a fresh array
    ([map(() => Array(...).fill(0))]), so rows are not aliased. *)
Definition levenshtein_table (a b : jsstring) : table :=
  let dp := replicate (length a + 1) (replicate (length b + 1) 0) in
  let dp := foldl (fun dp i => store dp i 0%nat (Z.of_nat i)) dp (seq 0 (length a + 1)) in
  let dp := foldl (fun dp j => store dp 0%nat j (Z.of_nat j)) dp (seq 0 (length b + 1)) in
  foldl (fun dp i => foldl (fill_cell a b i) dp (seq 1 (length b))) dp (seq 1 (length a)).

Definition levenshtein (a b : jsstring) : Z :=
  cell (levenshtein_table a b) (length a) (length b).

(** ** The edit distance of the specification

    One edit inserts, deletes or replaces a single code unit anywhere in
    the string; [edits n a b] is a chain of [n] edits from [a] to [b]. *)

Inductive edit_step : jsstring -> jsstring -> Prop :=
  | edit_insert p c s : edit_step (p ++ s) (p ++ c :: s)
  | edit_delete p c s : edit_step (p ++ c :: s) (p ++ s)
  | edit_substitute p c d s : c <> d -> edit_step (p ++ c :: s) (p ++ d :: s).

Inductive edits : nat -> jsstring -> jsstring -> Prop :=
  | edits_O a : edits 0 a a
  | edits_S n a b c : edit_step a b -> edits n b c -> edits (S n) a c.

(** The textbook recurrence on the heads of the two strings; a proof
    device that links the table to [edits]. *)
Fixpoint lev_rec (a b : jsstring) : nat :=
  match a with
  | [] => length b
  | x :: a' =>
      (fix inner (b0 : jsstring) : nat :=
         match b0 with
         | [] => S (length a')
         | y :: b' =>
             Nat.min (Nat.min (S (lev_rec a' b0)) (S (inner b')))
                     (lev_rec a' b' + if decide (x = y) then 0 else 1)
         end) b
  end.

(** ** Loops

    [while fuel cond body s] runs [while (cond) body] from state [s] for
    at most [fuel] iterations.  Both loops of [repeatVariants] advance an
    index towards [word.length], so [word.length] iterations are enough
    ([while_invariant] below). *)

Fixpoint while {S : Type} (fuel : nat) (cond : S -> bool) (body : S -> S) (s : S) : S :=
  match fuel with
  | O => s
  | Datatypes.S fuel => if cond s then while fuel cond body (body s) else s
  end.

(** ** Ordered sets

    A JavaScript [Set] iterates in insertion order and [add] ignores a
    value that is already present. *)

Definition set_add (s : list jsstring) (x : jsstring) : list jsstring :=
  if decide (x ∈ s) then s else s ++ [x].

Definition set_has (s : list jsstring) (x : jsstring) : bool :=
  bool_decide (x ∈ s).

(** ** repeatVariants (lines 113-143) *)

Record run := Run { ch : code_unit; len : nat }.

(** [let j = i + 1; while (j < word.length && word[j] === word[i]) j++;] *)
Definition run_end (word : jsstring) (i : nat) : nat :=
  while (length word)
    (fun j => (j <? length word)%nat && bool_decide (word !! j = word !! i))
    S (i + 1)%nat.

(** The outer loop over [i], with the [runs] array pushed to so far.
    [word[i]] is a code unit whenever [i < word.length]. *)
Definition scan_runs (word : jsstring) : list run :=
  snd (while (length word)
         (fun st : nat * list run => (fst st <? length word)%nat)
         (fun st =>
            let i := fst st in
            let j := run_end word i in
            match word !! i with
            | Some c => (j, snd st ++ [Run c (j - i)])
            | None => (j, snd st)
            end)
         (0%nat, [])).

(** [backtrack(idx, acc)], with [rs] the runs from [idx] on and the
    [variants] set threaded through the calls. *)
Fixpoint backtrack (rs : list run) (acc : jsstring) (variants : list jsstring)
  : list jsstring :=
  match rs with
  | [] => set_add variants acc
  | r :: rs' =>
      if (len r =? 1)%nat then backtrack rs' (acc ++ [ch r]) variants
      else
        let variants := backtrack rs' (acc ++ [ch r]) variants in
        backtrack rs' (acc ++ [ch r; ch r]) variants
  end.

Definition repeatVariants (word : jsstring) : list jsstring :=
  backtrack (scan_runs word) [] [].

(** ** Candidate generation (getCorrection, lines 41-64) *)

Definition alphabet : jsstring := Eval cbv in js "abcdefghijklmnopqrstuvwxyz".

Definition candidates (lower : jsstring) : list jsstring :=
  (* 1) repeated letters *)
  let cs := foldl set_add [] (repeatVariants lower) in
  (* 2) single deletion *)
  let cs := foldl (fun cs i => set_add cs (take i lower ++ drop (i + 1) lower))
                  cs (seq 0 (length lower)) in
  (* 3) single insertion *)
  let cs := foldl (fun cs i =>
                     foldl (fun cs c => set_add cs (take i lower ++ c :: drop i lower))
                           cs alphabet)
                  cs (seq 0 (length lower + 1)) in
  (* 4) single substitution *)
  foldl (fun cs i =>
           foldl (fun cs c =>
                    if bool_decide (Some c <> lower !! i)
                    then set_add cs (take i lower ++ c :: drop (i + 1) lower)
                    else cs)
                 cs alphabet)
        cs (seq 0 (length lower)).

(** ** Hit collection and selection (lines 66-84) *)

(** [candidates.forEach((c) => { if (!c) return; if (isWord(c)) hits.push(c); })] *)
Definition collect_hits (isWord : jsstring -> bool) (cs : list jsstring)
  : list jsstring :=
  foldl (fun hits c =>
           match c with
           | [] => hits
           | _ => if isWord c then hits ++ [c] else hits
           end) [] cs.

(** The state of the selection loop: [best] ([None] is [null]) and
    [bestScore] ([None] is [Infinity]). *)
Definition better (score : Z) (bestScore : option Z) : bool :=
  match bestScore with
  | None => true
  | Some s => score <? s
  end.

Definition consider (lower : jsstring) (st : option jsstring * option Z) (h : jsstring)
  : option jsstring * option Z :=
  let d := levenshtein lower h in
  if better d (snd st) then (Some h, Some d) else st.

Definition select_best (lower : jsstring) (hits : list jsstring) : option jsstring :=
  fst (foldl (consider lower) (None, None) hits).

(** ** The module state

    [__wordsDataset] is [null] or the loaded set; [has_fetch] is
    [typeof fetch === "function"]; [fetches] lists the URLs requested so
    far.  [loadWordsDataset] runs synchronously up to its first [await]:
    it returns at once when the cache is set and calls [fetch(url)]
    otherwise; the cache itself is only assigned when the response has
    arrived ([loadWordsDataset_settle], given the trimmed, lower-cased,
    non-empty lines of the response), after the caller has returned. *)

Record world := World {
  wordsDataset : option (list jsstring);
  has_fetch : bool;
  fetches : list jsstring
}.

Definition words_url : jsstring := Eval cbv in js "/words.txt".

Definition loadWordsDataset_start (url : jsstring) (w : world) : world :=
  match wordsDataset w with
  | Some _ => w
  | None => World (wordsDataset w) (has_fetch w) (fetches w ++ [url])
  end.

Definition loadWordsDataset_settle (words : list jsstring) (w : world) : world :=
  World (Some (foldl set_add [] words)) (has_fetch w) (fetches w).

Section Orchestrator.
(** [String.prototype.toLowerCase] and [toUpperCase]. *)
Variables toLowerCase toUpperCase : jsstring -> jsstring.

(** ** preserveCase (lines 146-155); [None] is a [null] correction. *)
Definition preserveCase (original : jsstring) (corrected : option jsstring) : jsstring :=
  match corrected with
  | None | Some [] => original
  | Some (c0 :: rest) =>
      if decide (toUpperCase original = original) then toUpperCase (c0 :: rest)
      else
        match original with
        | o0 :: _ =>
            if decide (toUpperCase [o0] = [o0]) then toUpperCase [c0] ++ rest
            else c0 :: rest
        | [] => c0 :: rest
        end
  end.

(** [isWord], the closure of line 32. *)
Definition isWord (hasWord : option (jsstring -> bool)) (w : world) (x : jsstring) : bool :=
  match hasWord with
  | Some h => h x
  | None =>
      match wordsDataset w with
      | Some d => set_has d x
      | None => false
      end
  end.

(** ** getCorrection (lines 21-89), over a candidate generator. *)
Definition getCorrection_over (generate : jsstring -> list jsstring)
    (rawWord : jsstring) (hasWord : option (jsstring -> bool)) (w : world)
  : jsstring * world :=
  match rawWord with
  | [] => (rawWord, w)
  | _ =>
      let lower := toLowerCase rawWord in
      let w :=
        if negb (bool_decide (is_Some hasWord))
           && negb (bool_decide (is_Some (wordsDataset w)))
           && has_fetch w
        then loadWordsDataset_start words_url w
        else w in
      if isWord hasWord w lower then (rawWord, w)
      else
        let hits := collect_hits (isWord hasWord w) (generate lower) in
        match hits with
        | [] => (rawWord, w)
        | _ => (preserveCase rawWord (select_best lower hits), w)
        end
  end.

Definition getCorrection := getCorrection_over candidates.

(** [correct(rawWord, oracle)] of the specification: [getCorrection]
    called with a predicate, in module state [w]. *)
Definition correct (rawWord : jsstring) (oracle : jsstring -> bool) (w : world) : jsstring :=
  fst (getCorrection rawWord (Some oracle) w).
End Orchestrator.

(** ** The platform's case mappings on Basic Latin

    [toLowerCase] and [toUpperCase] of ECMAScript map code units
    U+0041..U+005A to U+0061..U+007A and back and leave the other Basic
    Latin code units alone; U+00DF (sharp s) is its own lower-case form
    and its upper-case form is the two code units "SS".  These two
    functions are that fragment: they are only ever evaluated on strings
    of Basic Latin code units and U+00DF. *)

Definition lower_unit (c : code_unit) : jsstring :=
  if ((65 <=? c) && (c <=? 90))%N then [(c + 32)%N] else [c].

Definition upper_unit (c : code_unit) : jsstring :=
  if ((97 <=? c) && (c <=? 122))%N then [(c - 32)%N]
  else if (c =? 223)%N then [83%N; 83%N] else [c].

Definition toLowerCase_latin (s : jsstring) : jsstring := s ≫= lower_unit.
Definition toUpperCase_latin (s : jsstring) : jsstring := s ≫= upper_unit.

Definition basic_latin (s : jsstring) : Prop := Forall (fun c => (c < 128)%N) s.

(** What the development assumes of the platform where a property
    depends on it: on Basic Latin strings the case mappings are the
    ones above. *)
Definition latin_case_maps (toLowerCase toUpperCase : jsstring -> jsstring) : Prop :=
  forall s, basic_latin s ->
    toLowerCase s = toLowerCase_latin s /\ toUpperCase s = toUpperCase_latin s.

(** An oracle recognising exactly the listed words. *)
Definition knows (words : list jsstring) : jsstring -> bool :=
  fun x => bool_decide (x ∈ words).

(** The module as loaded: no cache, [fetch] available, nothing requested. *)
Definition fresh : world := World None true [].

(** ** loadWordsDataset (lines 7-18): the response

    [text.split(/\r?\n/)]: a line ends at a line feed, together with the
    carriage return just before it when there is one.  [line] is the
    part of the current line read so far. *)

Fixpoint split_lines_from (line text : jsstring) : list jsstring :=
  match text with
  | [] => [line]
  | c :: rest =>
      if (c =? 10)%N then line :: split_lines_from [] rest
      else if (c =? 13)%N then
        match rest with
        | d :: rest' =>
            if (d =? 10)%N then line :: split_lines_from [] rest'
            else split_lines_from (line ++ [c]) rest
        | [] => split_lines_from (line ++ [c]) rest
        end
      else split_lines_from (line ++ [c]) rest
  end.

Definition split_lines (text : jsstring) : list jsstring :=
  split_lines_from [] text.

Section LoadWords.
(** [String.prototype.toLowerCase] and [String.prototype.trim]. *)
Variables toLowerCase trim : jsstring -> jsstring.

(** [.map((w) => w.trim().toLowerCase()).filter(Boolean)] *)
Definition word_entries (text : jsstring) : list jsstring :=
  filter (fun x => x <> []) (map (fun x => toLowerCase (trim x)) (split_lines text)).

(** The rest of [loadWordsDataset] once [res.text()] has arrived: the
    cache is assigned the set of the entries. *)
Definition loadWordsDataset_receive (text : jsstring) (w : world) : world :=
  loadWordsDataset_settle (word_entries text) w.
End LoadWords.

(** Lines put together again with a separator between them. *)
Fixpoint join_lines (sep : jsstring) (lines : list jsstring) : jsstring :=
  match lines with
  | [] => []
  | [l] => l
  | l :: ls => l ++ sep ++ join_lines sep ls
  end.

(** * Specification-side notions *)

(** The string a list of runs stands for. *)
Fixpoint expand (rs : list run) : jsstring :=
  match rs with
  | [] => []
  | r :: rs' => replicate (len r) (ch r) ++ expand rs'
  end.

(** [rs] is the run-length encoding of [word] into maximal runs: the
    runs spell the word, none is empty, and neighbours differ. *)
Definition maximal_runs (rs : list run) (word : jsstring) : Prop :=
  expand rs = word /\
  Forall (fun r => (1 <= len r)%nat) rs /\
  forall k r r', rs !! k = Some r -> rs !! S k = Some r' -> ch r <> ch r'.

(** The run lengths the word may use in place of a run: 1, or 2 when
    the run is longer than 1. *)
Definition allowed (r : run) (k : nat) : Prop :=
  k = 1%nat \/ ((1 < len r)%nat /\ k = 2%nat).

(** [v] keeps the characters of [rs] and gives each run an allowed length. *)
Definition collapse_of (rs : list run) (v : jsstring) : Prop :=
  exists rs', Forall2 (fun r r' => ch r' = ch r /\ allowed r (len r')) rs rs' /\
              v = expand rs'.

(** [best] is the first Hit, at index [k], whose distance to [lower] is
    least: no Hit is closer and every earlier Hit is strictly farther. *)
Definition first_minimum (lower : jsstring) (hits : list jsstring)
    (k : nat) (best : jsstring) : Prop :=
  hits !! k = Some best /\
  (forall h, h ∈ hits -> levenshtein lower best <= levenshtein lower h) /\
  (forall k' h, (k' < k)%nat -> hits !! k' = Some h ->
                levenshtein lower best < levenshtein lower h).




(** The three single edits of the generator, as the passes build them. *)
Definition deletion_of (lower c : jsstring) : Prop :=
  exists i, (i < length lower)%nat /\ c = take i lower ++ drop (i + 1) lower.

Definition insertion_of (lower c : jsstring) : Prop :=
  exists i x, (i <= length lower)%nat /\ x ∈ alphabet /\
              c = take i lower ++ x :: drop i lower.

Definition substitution_of (lower c : jsstring) : Prop :=
  exists i x, (i < length lower)%nat /\ x ∈ alphabet /\ Some x <> lower !! i /\
              c = take i lower ++ x :: drop (i + 1) lower.



(** Basic Latin without capital letters: what lower-casing a Basic
    Latin string yields. *)
Definition plain_unit (c : code_unit) : Prop :=
  (c < 128)%N /\ ~ (65 <= c <= 90)%N.

Definition plain (s : jsstring) : Prop := Forall plain_unit s.

(** No code unit occurs three times in a row. *)
Definition triple_free (s : jsstring) : Prop :=
  forall p c t, s <> p ++ c :: c :: c :: t.


(** One edit with letters: any code unit may be deleted; what is
    inserted, or put in place of another code unit, is a letter a-z. *)
Inductive letter_edit : jsstring -> jsstring -> Prop :=
  | letter_delete p c s : letter_edit (p ++ c :: s) (p ++ s)
  | letter_insert p x s : x ∈ alphabet -> letter_edit (p ++ s) (p ++ x :: s)
  | letter_substitute p c x s :
      x ∈ alphabet -> c <> x -> letter_edit (p ++ c :: s) (p ++ x :: s).

(** * Properties *)

Example levenshtein_kitten :
  levenshtein (js "kitten") (js "sitting") = 3.
Proof. vm_compute. reflexivity. Qed.

Example repeatVariants_coooool :
  repeatVariants (js "coooool") = [js "col"; js "cool"].
Proof. vm_compute. reflexivity. Qed.

Example correct_coooool w :
  correct toLowerCase_latin toUpperCase_latin (js "coooool") (knows [js "cool"]) w
  = js "cool".
Proof. vm_compute. reflexivity. Qed.

Example correct_HELLLO w :
  correct toLowerCase_latin toUpperCase_latin (js "HELLLO") (knows [js "hello"]) w
  = js "HELLO".
Proof. vm_compute. reflexivity. Qed.

Example correct_Helllo w :
  correct toLowerCase_latin toUpperCase_latin (js "Helllo") (knows [js "hello"]) w
  = js "Hello".
Proof. vm_compute. reflexivity. Qed.

Example correct_ct w :
  correct toLowerCase_latin toUpperCase_latin (js "ct") (knows [js "cat"]) w
  = js "cat".
Proof. vm_compute. reflexivity. Qed.

(** ** The recurrence and chains of edits *)

Section Recurrence.
Local Open Scope nat_scope.

Lemma lev_rec_nil_r a : lev_rec a [] = length a.
Proof. destruct a; reflexivity. Qed.

Lemma lev_rec_cons x a y b :
  lev_rec (x :: a) (y :: b) =
  Nat.min (Nat.min (S (lev_rec a (y :: b))) (S (lev_rec (x :: a) b)))
          (lev_rec a b + if decide (x = y) then 0 else 1).
Proof. reflexivity. Qed.

Lemma lev_rec_sym a : forall b, lev_rec a b = lev_rec b a.
Proof.
  induction a as [|x a IHa]; intros b.
  - now rewrite lev_rec_nil_r.
  - induction b as [|y b IHb]; [reflexivity|].
    rewrite !lev_rec_cons, IHb, !IHa.
    destruct (decide (x = y)), (decide (y = x)); congruence || lia.
Qed.

Lemma lev_rec_refl a : lev_rec a a = 0.
Proof.
  induction a as [|x a IH]; [reflexivity|].
  rewrite lev_rec_cons, IH. destruct (decide (x = x)); [lia|congruence].
Qed.

(** One more code unit in front of the target costs at most one edit. *)
Lemma lev_rec_insert_head a x s : lev_rec a (x :: s) <= lev_rec a s + 1.
Proof.
  destruct a as [|u a]; [simpl; lia|].
  rewrite lev_rec_cons. lia.
Qed.

Lemma lev_rec_drop_left u a s : lev_rec (u :: a) s <= lev_rec a s + 1.
Proof. rewrite (lev_rec_sym (u :: a)), (lev_rec_sym a). apply lev_rec_insert_head. Qed.

Lemma lev_rec_delete_head x s : forall a, lev_rec a s <= lev_rec a (x :: s) + 1.
Proof.
  induction a as [|u a IH]; [simpl; lia|].
  rewrite lev_rec_cons.
  pose proof (lev_rec_drop_left u a s).
  destruct (decide (u = x)); lia.
Qed.

Lemma lev_rec_substitute_head x y s :
  forall a, lev_rec a (y :: s) <= lev_rec a (x :: s) + 1.
Proof.
  induction a as [|u a IH]; [simpl; lia|].
  rewrite !lev_rec_cons.
  destruct (decide (u = x)), (decide (u = y)); lia.
Qed.

Lemma lev_rec_under_cons z b c :
  (forall a, lev_rec a c <= lev_rec a b + 1) ->
  forall a, lev_rec a (z :: c) <= lev_rec a (z :: b) + 1.
Proof.
  intros H. induction a as [|u a IH].
  - specialize (H []). simpl in *. lia.
  - rewrite !lev_rec_cons.
    pose proof (H (u :: a)). pose proof (H a).
    destruct (decide (u = z)); lia.
Qed.

(** The recurrence is 1-Lipschitz in its target along single edits. *)
Lemma lev_rec_step b c :
  edit_step b c -> forall a, lev_rec a c <= lev_rec a b + 1.
Proof.
  intros [p x s|p x s|p x y s _]; induction p as [|z p IH]; simpl;
    auto using lev_rec_under_cons, lev_rec_insert_head,
               lev_rec_delete_head, lev_rec_substitute_head.
Qed.

Lemma edit_step_sym a b : edit_step a b -> edit_step b a.
Proof.
  intros [p x s|p x s|p x y s Hxy]; constructor. congruence.
Qed.

Lemma edit_step_cons z a b : edit_step a b -> edit_step (z :: a) (z :: b).
Proof.
  intros [p x s|p x s|p x y s Hxy].
  - apply (edit_insert (z :: p)).
  - apply (edit_delete (z :: p)).
  - now apply (edit_substitute (z :: p)).
Qed.

Lemma edit_step_rev a b : edit_step a b -> edit_step (rev a) (rev b).
Proof.
  intros [p x s|p x s|p x y s Hxy];
    rewrite !rev_app_distr; simpl; rewrite <- !app_assoc; simpl.
  - apply edit_insert.
  - apply edit_delete.
  - now apply edit_substitute.
Qed.

Lemma edits_trans n m a b c :
  edits n a b -> edits m b c -> edits (n + m) a c.
Proof.
  induction 1 as [|n a b' b Hs _ IH]; intros Hm; [exact Hm|].
  simpl. eapply edits_S; eauto.
Qed.

Lemma edits_cons z n a b : edits n a b -> edits n (z :: a) (z :: b).
Proof.
  induction 1 as [|n a b' b Hs _ IH]; [constructor|].
  eapply edits_S; [apply edit_step_cons, Hs|exact IH].
Qed.

Lemma edits_snoc n a b c : edits n a b -> edit_step b c -> edits (S n) a c.
Proof.
  intros H Hs. replace (S n) with (n + 1) by lia.
  eapply edits_trans; [exact H|]. eapply edits_S; [exact Hs|constructor].
Qed.

Lemma edits_rev n a b : edits n a b -> edits n (rev a) (rev b).
Proof.
  induction 1 as [|n a b' b Hs _ IH]; [constructor|].
  eapply edits_S; [apply edit_step_rev, Hs|exact IH].
Qed.

Lemma edits_build b : edits (length b) [] b.
Proof.
  induction b as [|y b IH]; [constructor|]. simpl.
  eapply edits_snoc; [exact IH|]. apply (edit_insert []).
Qed.

Lemma edits_erase a : edits (length a) a [].
Proof.
  induction a as [|x a IH]; [constructor|]. simpl.
  eapply edits_S; [apply (edit_delete [] x a)|exact IH].
Qed.

(** A chain of [lev_rec a b] edits exists ... *)
Lemma lev_rec_attained a : forall b, edits (lev_rec a b) a b.
Proof.
  induction a as [|x a IHa]; intros b; [apply edits_build|].
  induction b as [|y b IHb]; [apply (edits_erase (x :: a))|].
  rewrite lev_rec_cons.
  destruct (Nat.min_spec (Nat.min (S (lev_rec a (y :: b))) (S (lev_rec (x :: a) b)))
              (lev_rec a b + if decide (x = y) then 0 else 1)) as [[_ ->]|[_ ->]].
  - destruct (Nat.min_spec (S (lev_rec a (y :: b))) (S (lev_rec (x :: a) b)))
      as [[_ ->]|[_ ->]].
    + eapply edits_S; [apply (edit_delete [] x a)|apply IHa].
    + eapply edits_S; [apply (edit_insert [] y (x :: a))|].
      apply edits_cons, IHb.
  - destruct (decide (x = y)) as [->|Hxy].
    + rewrite Nat.add_0_r. apply edits_cons, IHa.
    + rewrite Nat.add_1_r.
      eapply edits_S; [apply (edit_substitute [] x y a Hxy)|].
      apply edits_cons, IHa.
Qed.

(** ... and no chain is shorter. *)
Lemma lev_rec_least n a b : edits n a b -> lev_rec a b <= n.
Proof.
  induction 1 as [a|n a b c Hs _ IH]; [rewrite lev_rec_refl; lia|].
  pose proof (lev_rec_step _ _ (edit_step_sym _ _ Hs) c) as H.
  rewrite (lev_rec_sym a c), <- (lev_rec_sym b c) in *. lia.
Qed.

Lemma lev_rec_rev a b : lev_rec (rev a) (rev b) = lev_rec a b.
Proof.
  apply Nat.le_antisymm.
  - apply lev_rec_least, edits_rev, lev_rec_attained.
  - apply lev_rec_least.
    pose proof (edits_rev _ _ _ (lev_rec_attained (rev a) (rev b))) as H.
    now rewrite !rev_involutive in H.
Qed.
End Recurrence.

(** ** The table holds the distances of all prefixes *)

Lemma foldl_seq_invariant {S : Type} (I : nat -> S -> Prop) (f : S -> nat -> S) :
  forall n start s,
    I start s ->
    (forall k s, (start <= k < start + n)%nat -> I k s -> I (Datatypes.S k) (f s k)) ->
    I (start + n)%nat (foldl f s (seq start n)).
Proof.
  induction n as [|n IH]; intros start s H0 Hstep; simpl.
  - now rewrite Nat.add_0_r.
  - rewrite <- Nat.add_succ_comm. apply IH.
    + apply Hstep; [lia|exact H0].
    + intros k s' Hk. apply Hstep. lia.
Qed.

Section Table.
Variables a b : jsstring.

(** The distance between the prefixes of lengths [i] and [j]. *)
Definition prefix_distance (i j : nat) : Z :=
  Z.of_nat (lev_rec (rev (take i a)) (rev (take j b))).

Definition shape (dp : table) : Prop :=
  length dp = (length a + 1)%nat /\
  forall i row, dp !! i = Some row -> length row = (length b + 1)%nat.

(** The cells of region [R] hold their final values. *)
Definition known (R : nat -> nat -> Prop) (dp : table) : Prop :=
  shape dp /\
  forall i j, (i <= length a)%nat -> (j <= length b)%nat -> R i j ->
    cell dp i j = prefix_distance i j.

Lemma prefix_distance_row0 j : (j <= length b)%nat -> prefix_distance 0 j = Z.of_nat j.
Proof.
  intros Hj. unfold prefix_distance. simpl.
  now rewrite length_rev, length_take, Nat.min_l.
Qed.

Lemma prefix_distance_col0 i : (i <= length a)%nat -> prefix_distance i 0 = Z.of_nat i.
Proof.
  intros Hi. unfold prefix_distance. simpl.
  now rewrite lev_rec_nil_r, length_rev, length_take, Nat.min_l.
Qed.

Lemma prefix_distance_step i j :
  (i < length a)%nat -> (j < length b)%nat ->
  prefix_distance (S i) (S j) =
  Z.min (Z.min (prefix_distance i (S j) + 1) (prefix_distance (S i) j + 1))
        (prefix_distance i j + cost a b (S i) (S j)).
Proof.
  intros Hi Hj. unfold prefix_distance, cost.
  destruct (lookup_lt_is_Some_2 a i Hi) as [x Hx].
  destruct (lookup_lt_is_Some_2 b j Hj) as [y Hy].
  replace (S i - 1)%nat with i by lia. replace (S j - 1)%nat with j by lia.
  rewrite Hx, Hy.
  rewrite (take_S_r a i x Hx), (take_S_r b j y Hy), !rev_unit, lev_rec_cons.
  destruct (decide (x = y)), (decide (Some x = Some y)); try congruence; lia.
Qed.

Lemma shape_store dp i j v : shape dp -> shape (store dp i j v).
Proof.
  intros [Hlen Hrows]. split; unfold store.
  - now rewrite length_alter.
  - intros i' row. rewrite list_lookup_alter.
    destruct (decide (i = i')) as [->|Hne]; [|apply Hrows].
    destruct (dp !! i') as [r|] eqn:Hr; simpl; [|discriminate].
    intros [= <-]. rewrite length_insert. eauto.
Qed.

Lemma cell_store_eq dp i j v :
  shape dp -> (i <= length a)%nat -> (j <= length b)%nat ->
  cell (store dp i j v) i j = v.
Proof.
  intros [Hlen Hrows] Hi Hj. unfold cell, store.
  rewrite list_lookup_alter_eq.
  destruct (lookup_lt_is_Some_2 dp i) as [row Hrow]; [lia|].
  rewrite Hrow. simpl.
  rewrite list_lookup_insert_eq; [reflexivity|].
  rewrite (Hrows _ _ Hrow). lia.
Qed.

Lemma cell_store_ne dp i j v i' j' :
  (i', j') <> (i, j) -> cell (store dp i j v) i' j' = cell dp i' j'.
Proof.
  intros Hne. unfold cell, store.
  destruct (decide (i = i')) as [<-|Hi].
  - rewrite list_lookup_alter_eq.
    destruct (dp !! i) as [row|]; simpl; [|reflexivity].
    rewrite list_lookup_insert_ne; [reflexivity|congruence].
  - now rewrite list_lookup_alter_ne.
Qed.

Lemma read_defined dp i j :
  shape dp -> (i <= length a)%nat -> (j <= length b)%nat ->
  is_Some (dp !! i ≫= (.!! j)).
Proof.
  intros [Hlen Hrows] Hi Hj.
  destruct (lookup_lt_is_Some_2 dp i) as [row Hrow]; [lia|].
  rewrite Hrow. simpl. apply lookup_lt_is_Some_2.
  rewrite (Hrows _ _ Hrow). lia.
Qed.

(** The three reads of the inner loop are reads of table cells. *)
Lemma fill_cell_reads_defined dp i j :
  shape dp -> (1 <= i <= length a)%nat -> (1 <= j <= length b)%nat ->
  is_Some (dp !! (i - 1)%nat ≫= (.!! j)) /\
  is_Some (dp !! i ≫= (.!! (j - 1)%nat)) /\
  is_Some (dp !! (i - 1)%nat ≫= (.!! (j - 1)%nat)).
Proof. intros Hs Hi Hj. repeat split; apply read_defined; (exact Hs || lia). Qed.

(** Writing the right value into one more cell extends the region. *)
Lemma known_store (R R' : nat -> nat -> Prop) dp i j v :
  known R dp -> (i <= length a)%nat -> (j <= length b)%nat ->
  v = prefix_distance i j ->
  (forall i' j', R' i' j' -> R i' j' \/ (i' = i /\ j' = j)) ->
  known R' (store dp i j v).
Proof.
  intros [Hshape Hcells] Hi Hj -> Hsub. split; [now apply shape_store|].
  intros i' j' Hi' Hj' HR'.
  destruct (decide ((i', j') = (i, j))) as [[= -> ->]|Hne].
  - now apply cell_store_eq.
  - rewrite cell_store_ne by exact Hne.
    destruct (Hsub _ _ HR') as [HR|[-> ->]]; [now apply Hcells|congruence].
Qed.

Lemma known_weaken (R R' : nat -> nat -> Prop) dp :
  known R dp ->
  (forall i j, (i <= length a)%nat -> (j <= length b)%nat -> R' i j -> R i j) ->
  known R' dp.
Proof. intros [Hshape Hcells] Hsub. split; auto. Qed.

Lemma shape_initial :
  shape (replicate (length a + 1) (replicate (length b + 1) 0)).
Proof.
  split; [apply length_replicate|].
  intros i row [-> _]%lookup_replicate. apply length_replicate.
Qed.

Lemma fill_cell_known i j dp :
  (1 <= i <= length a)%nat -> (1 <= j <= length b)%nat ->
  known (fun i' j' => j' = 0 \/ i' = 0 \/ i' < i \/ (i' = i /\ j' < j))%nat dp ->
  known (fun i' j' => j' = 0 \/ i' = 0 \/ i' < i \/ (i' = i /\ j' < S j))%nat
        (fill_cell a b i dp j).
Proof.
  intros Hi Hj Hk. unfold fill_cell.
  eapply known_store; [exact Hk|lia|lia| |cbv beta; intros; lia].
  destruct Hk as [_ Hcells].
  destruct i as [|i]; [lia|]. destruct j as [|j]; [lia|].
  rewrite prefix_distance_step by lia.
  replace (S i - 1)%nat with i by lia. replace (S j - 1)%nat with j by lia.
  rewrite !Hcells by lia. reflexivity.
Qed.

Lemma levenshtein_table_known :
  known (fun _ _ => True) (levenshtein_table a b).
Proof.
  unfold levenshtein_table.
  set (dp0 := replicate _ _).
  set (dp1 := foldl _ dp0 _).
  set (dp2 := foldl _ dp1 _).
  assert (H1 : known (fun i j => j = 0 /\ i < 0 + (length a + 1))%nat dp1).
  { apply (foldl_seq_invariant (fun k => known (fun i j => j = 0 /\ i < k)%nat)).
    - split; [apply shape_initial|]. intros; lia.
    - intros k dp Hk Hdp.
      eapply known_store; [exact Hdp|lia|lia| |cbv beta; intros; lia].
      symmetry. apply prefix_distance_col0. lia. }
  assert (H2 : known (fun i j => j = 0 \/ (i = 0 /\ j < 0 + (length b + 1)))%nat dp2).
  { apply (foldl_seq_invariant (fun k => known (fun i j => j = 0 \/ (i = 0 /\ j < k))%nat)).
    - eapply known_weaken; [exact H1|]. cbv beta; intros; lia.
    - intros k dp Hk Hdp.
      eapply known_store; [exact Hdp|lia|lia| |cbv beta; intros; lia].
      symmetry. apply prefix_distance_row0. lia. }
  eapply known_weaken.
  - apply (foldl_seq_invariant
             (fun k => known (fun i j => j = 0 \/ i = 0 \/ i < k)%nat)).
    + eapply known_weaken; [exact H2|]. cbv beta; intros; lia.
    + intros i dp Hi Hdp.
      eapply known_weaken.
      * apply (foldl_seq_invariant
                 (fun k => known (fun i' j' =>
                    j' = 0 \/ i' = 0 \/ i' < i \/ (i' = i /\ j' < k))%nat)).
        -- eapply known_weaken; [exact Hdp|]. cbv beta; intros; lia.
        -- intros j dp' Hj Hdp'. apply fill_cell_known; [lia|lia|exact Hdp'].
      * cbv beta; intros; lia.
  - cbv beta; intros; lia.
Qed.
End Table.

Lemma levenshtein_lev_rec a b : levenshtein a b = Z.of_nat (lev_rec a b).
Proof.
  unfold levenshtein.
  destruct (levenshtein_table_known a b) as [_ H].
  rewrite H by (trivial || lia).
  unfold prefix_distance. now rewrite !firstn_all, lev_rec_rev.
Qed.

(** ** Loops with fuel *)

Lemma while_invariant {S : Type} (I : S -> Prop) (measure : S -> nat)
    (cond : S -> bool) (body : S -> S) :
  (forall s, I s -> cond s = true ->
             I (body s) /\ (measure (body s) < measure s)%nat) ->
  forall fuel s, I s -> (measure s <= fuel)%nat ->
    I (while fuel cond body s) /\ cond (while fuel cond body s) = false.
Proof.
  intros Hstep. induction fuel as [|fuel IH]; intros s HI Hm; simpl.
  - split; [exact HI|].
    destruct (cond s) eqn:Hc; [|reflexivity].
    destruct (Hstep s HI Hc). lia.
  - destruct (cond s) eqn:Hc; [|now split].
    destruct (Hstep s HI Hc). apply IH; [assumption|lia].
Qed.

(** ** The runs of a word *)

Section Runs.
Local Open Scope nat_scope.
Variable word : jsstring.

Lemma run_end_spec i c :
  word !! i = Some c ->
  i < run_end word i <= length word /\
  (forall k, i <= k < run_end word i -> word !! k = Some c) /\
  word !! run_end word i <> Some c.
Proof.
  intros Hc. pose proof (lookup_lt_Some _ _ _ Hc) as Hi.
  unfold run_end.
  destruct (while_invariant
              (fun j => i < j <= length word /\
                        forall k, i <= k < j -> word !! k = Some c)
              (fun j => length word - j)
              (fun j => (j <? length word) && bool_decide (word !! j = word !! i))
              S) with (fuel := length word) (s := i + 1) as [[Hj Hall] Hexit].
  - intros j [Hj Hall] [Hlt Heq%bool_decide_eq_true]%andb_true_iff.
    apply Nat.ltb_lt in Hlt. repeat split; try lia.
    intros k Hk. destruct (decide (k = j)) as [->|]; [congruence|].
    apply Hall. lia.
  - split; [lia|]. intros k Hk. now replace k with i by lia.
  - lia.
  - repeat split; try lia; [exact Hall|].
    apply andb_false_iff in Hexit as [Hge|Hne].
    + apply Nat.ltb_ge in Hge. rewrite lookup_ge_None_2 by lia. discriminate.
    + apply bool_decide_eq_false in Hne. congruence.
Qed.

Lemma take_run_add i c d :
  i + d <= length word ->
  (forall k, i <= k < i + d -> word !! k = Some c) ->
  take (i + d) word = take i word ++ replicate d c.
Proof.
  induction d as [|d IH]; intros Hd Hall.
  - rewrite Nat.add_0_r. simpl. now rewrite app_nil_r.
  - rewrite Nat.add_succ_r.
    rewrite (take_S_r _ _ c) by (apply Hall; lia).
    rewrite IH by (try lia; intros k Hk; apply Hall; lia).
    rewrite <- app_assoc. f_equal.
    change [c] with (replicate 1 c). rewrite <- replicate_add.
    f_equal. lia.
Qed.

Lemma take_run i j c :
  i <= j <= length word ->
  (forall k, i <= k < j -> word !! k = Some c) ->
  take j word = take i word ++ replicate (j - i) c.
Proof.
  intros [Hij Hj] Hall.
  rewrite <- take_run_add; [f_equal; lia|lia|].
  intros k Hk. apply Hall. lia.
Qed.
End Runs.

Lemma expand_app rs1 rs2 : expand (rs1 ++ rs2) = expand rs1 ++ expand rs2.
Proof.
  induction rs1 as [|r rs1 IH]; [reflexivity|].
  simpl. now rewrite IH, app_assoc.
Qed.

(** The loop of lines 114-122 computes the maximal runs. *)
Lemma scan_runs_maximal word : maximal_runs (scan_runs word) word.
Proof.
  unfold scan_runs.
  set (cond := fun st : nat * list run => (fst st <? length word)%nat).
  set (body := fun st : nat * list run => _).
  destruct (while_invariant
              (fun st : nat * list run =>
                 (fst st <= length word)%nat /\
                 maximal_runs (snd st) (take (fst st) word) /\
                 forall r, last (snd st) = Some r -> word !! fst st <> Some (ch r))
              (fun st => (length word - fst st)%nat) cond body)
    with (fuel := length word) (s := (0%nat, @nil run))
    as [(Hi & Hmax & _) Hexit].
  - intros [i rs] (Hi & (Hexp & Hlen & Hadj) & Hlast) Hc.
    unfold cond, body in *. simpl in *. apply Nat.ltb_lt in Hc.
    destruct (lookup_lt_is_Some_2 word i Hc) as [c Hic]. rewrite Hic.
    destruct (run_end_spec word i c Hic) as (Hj & Hall & Hstop).
    simpl. repeat split; try lia.
    + rewrite expand_app, Hexp. simpl. rewrite app_nil_r.
      symmetry. apply take_run; [lia|exact Hall].
    + apply Forall_app. split; [exact Hlen|]. repeat constructor. simpl. lia.
    + intros k r r' Hr Hr'.
      destruct (decide (S k < length rs)%nat) as [Hk|Hk].
      * rewrite lookup_app_l in Hr, Hr' by lia. eauto.
      * pose proof (lookup_lt_Some _ _ _ Hr') as Hk'.
        rewrite length_app in Hk'. simpl in Hk'.
        rewrite lookup_app_l in Hr by lia.
        rewrite lookup_app_r in Hr' by lia.
        replace (S k - length rs)%nat with 0%nat in Hr' by lia.
        injection Hr' as <-. simpl.
        assert (Hl : last rs = Some r).
        { rewrite last_lookup. now replace (pred (length rs)) with k by lia. }
        specialize (Hlast r Hl). congruence.
    + intros r. rewrite last_snoc. intros [= <-]. exact Hstop.
  - simpl. split; [lia|]. split; [|discriminate].
    split; [reflexivity|]. split; [constructor|].
    intros k r r' Hr. now rewrite lookup_nil in Hr.
  - simpl. lia.
  - change ((fst (while (length word) cond body (0%nat, [])) <? length word)%nat = false)
      in Hexit.
    apply Nat.ltb_ge in Hexit.
    rewrite take_ge in Hmax by lia. exact Hmax.
Qed.

(** ** Ordered sets *)

Lemma elem_of_set_add s x v : v ∈ set_add s x <-> v ∈ s \/ v = x.
Proof.
  unfold set_add. destruct (decide (x ∈ s)) as [Hin|Hnot].
  - split; [now left|]. intros [H| ->]; assumption.
  - rewrite elem_of_app, list_elem_of_singleton. reflexivity.
Qed.

Lemma NoDup_set_add s x : NoDup s -> NoDup (set_add s x).
Proof.
  intros Hs. unfold set_add. destruct (decide (x ∈ s)) as [Hin|Hnot]; [exact Hs|].
  apply NoDup_app. repeat split; [exact Hs| |apply NoDup_singleton].
  intros y Hy ->%list_elem_of_singleton. contradiction.
Qed.

(** ** The variants of the backtracking *)

Lemma collapse_of_nil t : collapse_of [] t <-> t = [].
Proof.
  split.
  - intros (rs' & H & ->). apply Forall2_nil_inv_l in H. now subst.
  - intros ->. exists []. split; [constructor|reflexivity].
Qed.

Lemma collapse_of_cons r rs t :
  collapse_of (r :: rs) t <->
  exists k t', allowed r k /\ collapse_of rs t' /\ t = replicate k (ch r) ++ t'.
Proof.
  split.
  - intros (rs' & H & ->).
    apply Forall2_cons_inv_l in H as (r' & rs'' & [Hch Hk] & Hrest & ->).
    exists (len r'), (expand rs''). simpl. rewrite Hch.
    repeat split; [exact Hk|]. now exists rs''.
  - intros (k & t' & Hk & (rs' & Hrest & ->) & ->).
    exists (Run (ch r) k :: rs'). split; [|reflexivity].
    constructor; [now split|exact Hrest].
Qed.

Lemma backtrack_elem v rs :
  Forall (fun r => (1 <= len r)%nat) rs ->
  forall acc vs,
    v ∈ backtrack rs acc vs <->
    v ∈ vs \/ exists t, collapse_of rs t /\ v = acc ++ t.
Proof.
  induction 1 as [|r rs Hr _ IH]; intros acc vs; simpl.
  - rewrite elem_of_set_add. split; (intros [H|H]; [now left|right]).
    + exists []. rewrite app_nil_r. split; [now apply collapse_of_nil|exact H].
    + destruct H as (t & ->%collapse_of_nil & ->). now rewrite app_nil_r.
  - destruct (Nat.eqb_spec (len r) 1) as [H1|H1].
    + rewrite IH. split; (intros [H|(t & Ht & ->)]; [now left|right]).
      * exists (ch r :: t). rewrite <- app_assoc. split; [|reflexivity].
        apply collapse_of_cons. exists 1%nat, t. repeat split; [now left|exact Ht].
      * apply collapse_of_cons in Ht as (k & t' & [->|[Hk _]] & Ht' & ->); [|lia].
        exists t'. rewrite <- app_assoc. now split.
    + rewrite !IH. split.
      * intros [[H|(t & Ht & ->)]|(t & Ht & ->)]; [now left|right|right].
        -- exists (ch r :: t). rewrite <- app_assoc. split; [|reflexivity].
           apply collapse_of_cons. exists 1%nat, t. repeat split; [now left|exact Ht].
        -- exists (ch r :: ch r :: t). rewrite <- app_assoc. split; [|reflexivity].
           apply collapse_of_cons. exists 2%nat, t.
           repeat split; [right; split; [lia|reflexivity]|exact Ht].
      * intros [H|(t & Ht & ->)]; [now left; left|].
        apply collapse_of_cons in Ht as (k & t' & [->|[_ ->]] & Ht' & ->).
        -- left; right. exists t'. rewrite <- app_assoc. now split.
        -- right. exists t'. rewrite <- app_assoc. now split.
Qed.

Lemma backtrack_NoDup rs : forall acc vs, NoDup vs -> NoDup (backtrack rs acc vs).
Proof.
  induction rs as [|r rs IH]; intros acc vs Hvs; simpl.
  - now apply NoDup_set_add.
  - destruct (len r =? 1)%nat; auto.
Qed.

Lemma repeatVariants_elem word v :
  v ∈ repeatVariants word <-> collapse_of (scan_runs word) v.
Proof.
  unfold repeatVariants.
  destruct (scan_runs_maximal word) as (_ & Hlen & _).
  rewrite (backtrack_elem v _ Hlen). split.
  - intros [H|(t & Ht & ->)]; [now apply elem_of_nil in H|exact Ht].
  - intros H. right. now exists v.
Qed.

(** A word has one encoding into maximal runs. *)
Lemma maximal_runs_tail r rs word :
  maximal_runs (r :: rs) word -> maximal_runs rs (expand rs).
Proof.
  intros (_ & Hlen & Hadj). split; [reflexivity|].
  split; [now apply Forall_cons in Hlen as [_ ?]|].
  intros k r1 r2 H1 H2. apply (Hadj (S k)); assumption.
Qed.

Lemma replicate_app_head (c : code_unit) n1 : forall n2 (X1 X2 : jsstring),
  replicate n1 c ++ X1 = replicate n2 c ++ X2 -> (n1 < n2)%nat ->
  head X1 = Some c.
Proof.
  induction n1 as [|n1 IH]; intros [|n2] X1 X2 Heq Hlt; try lia; simpl in Heq.
  - now subst.
  - injection Heq as Heq. apply (IH n2 X1 X2 Heq). lia.
Qed.

Lemma maximal_runs_head r rs word c :
  maximal_runs (r :: rs) word -> head (expand rs) = Some c -> ch r <> c.
Proof.
  intros (_ & Hlen & Hadj) Hhd.
  destruct rs as [|r' rs']; [discriminate|].
  apply Forall_cons in Hlen as [_ [Hr' _]%Forall_cons].
  simpl in Hhd. destruct (len r') as [|n]; [lia|]. simpl in Hhd.
  injection Hhd as <-. now apply (Hadj 0%nat r r').
Qed.

Lemma maximal_runs_unique rs1 : forall rs2 word,
  maximal_runs rs1 word -> maximal_runs rs2 word -> rs1 = rs2.
Proof.
  induction rs1 as [|r1 rs1 IH]; intros rs2 word H1 H2.
  - destruct H1 as (<- & _). destruct H2 as (Hexp & Hlen & _).
    destruct rs2 as [|r2 rs2]; [reflexivity|].
    apply Forall_cons in Hlen as [Hr2 _].
    simpl in Hexp. destruct (len r2); [lia|discriminate].
  - pose proof H1 as (Hexp1 & Hlen1 & _). pose proof H2 as (Hexp2 & Hlen2 & _).
    destruct rs2 as [|r2 rs2].
    + apply Forall_cons in Hlen1 as [Hr1 _]. rewrite <- Hexp2 in Hexp1.
      simpl in Hexp1. destruct (len r1); [lia|discriminate].
    + apply Forall_cons in Hlen1 as [Hr1 _]. apply Forall_cons in Hlen2 as [Hr2 _].
      rewrite <- Hexp2 in Hexp1. simpl in Hexp1.
      assert (Hch : ch r1 = ch r2).
      { destruct (len r1), (len r2); try lia. simpl in Hexp1. congruence. }
      rewrite Hch in Hexp1.
      assert (Hn : len r1 = len r2).
      { destruct (Nat.lt_trichotomy (len r1) (len r2)) as [Hlt|[Heq|Hgt]];
          [|exact Heq|].
        - apply replicate_app_head in Hexp1; [|exact Hlt].
          now apply (maximal_runs_head _ _ _ _ H1) in Hexp1.
        - symmetry in Hexp1. apply replicate_app_head in Hexp1; [|exact Hgt].
          apply (maximal_runs_head _ _ _ _ H2) in Hexp1. congruence. }
      rewrite Hn in Hexp1. apply app_inv_head in Hexp1.
      assert (Hr : r1 = r2) by (destruct r1, r2; simpl in *; congruence).
      subst r2. f_equal.
      apply (IH rs2 (expand rs1)); [now apply (maximal_runs_tail r1 _ word)|].
      rewrite Hexp1. now apply (maximal_runs_tail r1 _ word).
Qed.

(** ** The candidate set *)

Lemma foldl_elem {A B : Type} (F : list A -> B -> list A) (P : B -> A -> Prop) :
  (forall cs y v, v ∈ F cs y <-> v ∈ cs \/ P y v) ->
  forall ys cs v, v ∈ foldl F cs ys <-> v ∈ cs \/ exists y, y ∈ ys /\ P y v.
Proof.
  intros HF. induction ys as [|y ys IH]; intros cs v; simpl.
  - split; [now left|]. intros [H|(y & Hy & _)]; [exact H|]. now apply elem_of_nil in Hy.
  - rewrite IH, HF. split.
    + intros [[H|H]|(y' & Hy' & H)]; [now left| |].
      * right. exists y. split; [left|exact H].
      * right. exists y'. split; [now right|exact H].
    + intros [H|(y' & Hy' & H)]; [now left; left|].
      apply elem_of_cons in Hy' as [->|Hy']; [now left; right|].
      right. now exists y'.
Qed.

Lemma foldl_NoDup {A B : Type} (F : list A -> B -> list A) :
  (forall cs y, NoDup cs -> NoDup (F cs y)) ->
  forall ys cs, NoDup cs -> NoDup (foldl F cs ys).
Proof.
  intros HF. induction ys as [|y ys IH]; intros cs Hcs; simpl; auto.
Qed.

Lemma candidates_elem lower c :
  c ∈ candidates lower <->
  c ∈ repeatVariants lower \/ deletion_of lower c \/
  insertion_of lower c \/ substitution_of lower c.
Proof.
  unfold candidates.
  rewrite (foldl_elem _ (fun i v =>
             exists x, x ∈ alphabet /\ Some x <> lower !! i /\
                       v = take i lower ++ x :: drop (i + 1) lower)).
  2:{ intros cs i v.
      rewrite (foldl_elem _ (fun x v => Some x <> lower !! i /\
                 v = take i lower ++ x :: drop (i + 1) lower)).
      - split; (intros [H|(x & Hx & H)]; [now left|right]); eauto.
      - intros cs' x v'. case_bool_decide as Hx.
        + rewrite elem_of_set_add. split; (intros [H|H]; [now left|right]); tauto.
        + split; [now left|]. intros [H|[? _]]; [exact H|contradiction]. }
  rewrite (foldl_elem _ (fun i v =>
             exists x, x ∈ alphabet /\ v = take i lower ++ x :: drop i lower)).
  2:{ intros cs i v.
      rewrite (foldl_elem _ (fun x v => v = take i lower ++ x :: drop i lower)).
      - reflexivity.
      - intros cs' x v'. apply elem_of_set_add. }
  rewrite (foldl_elem _ (fun i v => v = take i lower ++ drop (i + 1) lower)).
  2:{ intros cs i v. apply elem_of_set_add. }
  rewrite (foldl_elem _ (fun x v => v = x)).
  2:{ intros cs x v. apply elem_of_set_add. }
  unfold deletion_of, insertion_of, substitution_of.
  split.
  - intros [[[[H|(x & Hx & ->)]|(i & Hi%elem_of_seq & ->)]
            |(i & Hi%elem_of_seq & x & Hx & ->)]
            |(i & Hi%elem_of_seq & x & Hx & Hne & ->)].
    + now apply elem_of_nil in H.
    + now left.
    + right; left. exists i. split; [lia|reflexivity].
    + right; right; left. exists i, x. repeat split; [lia|exact Hx].
    + right; right; right. exists i, x. repeat split; [lia|exact Hx|exact Hne].
  - intros [H|[(i & Hi & ->)|[(i & x & Hi & Hx & ->)|(i & x & Hi & Hx & Hne & ->)]]].
    + left; left; left; right. now exists c.
    + left; left; right. exists i. split; [apply elem_of_seq; lia|reflexivity].
    + left; right. exists i. split; [apply elem_of_seq; lia|]. now exists x.
    + right. exists i. split; [apply elem_of_seq; lia|]. now exists x.
Qed.

Lemma candidates_NoDup lower : NoDup (candidates lower).
Proof.
  unfold candidates.
  apply foldl_NoDup.
  { intros cs i H. apply foldl_NoDup; [|exact H].
    intros cs' x H'. case_bool_decide; auto using NoDup_set_add. }
  apply foldl_NoDup.
  { intros cs i H. apply foldl_NoDup; [|exact H].
    intros cs' x H'. now apply NoDup_set_add. }
  apply foldl_NoDup; [intros; now apply NoDup_set_add|].
  apply foldl_NoDup; [intros; now apply NoDup_set_add|].
  apply NoDup_nil_2.
Qed.

(** ** Hits *)

Lemma collect_hits_filter isWord cs :
  collect_hits isWord cs = filter (fun c => c <> [] /\ isWord c = true) cs.
Proof.
  unfold collect_hits.
  enough (H : forall acc,
             foldl (fun hits c => match c with
                                  | [] => hits
                                  | _ => if isWord c then hits ++ [c] else hits
                                  end) acc cs
             = acc ++ filter (fun c => c <> [] /\ isWord c = true) cs)
    by apply (H []).
  induction cs as [|c cs IH]; intros acc; simpl; [now rewrite app_nil_r|].
  rewrite IH.
  destruct c as [|x c].
  - rewrite filter_cons_False; [reflexivity|]. intros [Hne _]. congruence.
  - destruct (isWord (x :: c)) eqn:Hw.
    + rewrite filter_cons_True by (split; [discriminate|exact Hw]).
      now rewrite <- app_assoc.
    + rewrite filter_cons_False; [reflexivity|]. intros [_ Ht]. congruence.
Qed.

Lemma elem_of_collect_hits isWord cs h :
  h ∈ collect_hits isWord cs <-> h ∈ cs /\ h <> [] /\ isWord h = true.
Proof. rewrite collect_hits_filter, list_elem_of_filter. tauto. Qed.

Lemma collect_hits_nil isWord cs :
  (forall c, c ∈ cs -> c <> [] -> isWord c = false) ->
  collect_hits isWord cs = [].
Proof.
  intros H. destruct (collect_hits isWord cs) as [|h hs] eqn:Hh; [reflexivity|].
  assert (Hin : h ∈ collect_hits isWord cs) by (rewrite Hh; left).
  apply elem_of_collect_hits in Hin as (Hc & Hne & Hw).
  rewrite (H h Hc Hne) in Hw. discriminate.
Qed.

(** The selection loop keeps the first Hit of least distance. *)
Lemma select_best_state lower hits :
  (hits = [] /\ foldl (consider lower) (None, None) hits = (None, None)) \/
  exists k best,
    first_minimum lower hits k best /\
    foldl (consider lower) (None, None) hits
    = (Some best, Some (levenshtein lower best)).
Proof.
  induction hits as [|h hits IH] using rev_ind; [now left|].
  right. rewrite foldl_snoc.
  destruct IH as [[-> ->]|(k & best & (Hk & Hmin & Hfirst) & ->)].
  - exists 0%nat, h. split; [|reflexivity].
    split; [reflexivity|]. split; [|intros; lia].
    intros h' Hh'. simpl in Hh'. apply list_elem_of_singleton in Hh' as ->. lia.
  - unfold consider at 1. simpl.
    destruct (Z.ltb_spec (levenshtein lower h) (levenshtein lower best)) as [Hlt|Hge].
    + exists (length hits), h. split; [|reflexivity].
      split; [|split].
      * now rewrite lookup_app_r, Nat.sub_diag by lia.
      * intros h' [Hh'| ->%list_elem_of_singleton]%elem_of_app; [|lia].
        specialize (Hmin h' Hh'). lia.
      * intros k' h' Hk' Hh'. rewrite lookup_app_l in Hh' by lia.
        apply list_elem_of_lookup_2 in Hh'. specialize (Hmin h' Hh'). lia.
    + exists k, best. split; [|reflexivity].
      split; [|split].
      * rewrite lookup_app_l; [exact Hk|]. now apply lookup_lt_Some in Hk.
      * intros h' [Hh'| ->%list_elem_of_singleton]%elem_of_app; [auto|lia].
      * intros k' h' Hk' Hh'.
        rewrite lookup_app_l in Hh'; [eauto|].
        apply lookup_lt_Some in Hk. lia.
Qed.

Lemma select_best_first_minimum lower hits :
  hits <> [] ->
  exists k best, select_best lower hits = Some best /\ first_minimum lower hits k best.
Proof.
  intros Hne. unfold select_best.
  destruct (select_best_state lower hits) as [[? _]|(k & best & Hfm & ->)];
    [contradiction|eauto].
Qed.

(** ** The orchestrator *)

Section OrchestratorFacts.
Variables toLowerCase toUpperCase : jsstring -> jsstring.

Local Abbreviation getCorrection_over := (getCorrection_over toLowerCase toUpperCase).
Local Abbreviation correct := (correct toLowerCase toUpperCase).
Local Abbreviation preserveCase := (preserveCase toUpperCase).

(** With a predicate supplied the module state is neither read nor
    written. *)
Lemma getCorrection_over_oracle generate rawWord oracle w :
  getCorrection_over generate rawWord (Some oracle) w =
  (match rawWord with
   | [] => rawWord
   | _ =>
       if oracle (toLowerCase rawWord) then rawWord
       else match collect_hits oracle (generate (toLowerCase rawWord)) with
            | [] => rawWord
            | hits => preserveCase rawWord (select_best (toLowerCase rawWord) hits)
            end
   end, w).
Proof.
  unfold getCorrection_over.
  destruct rawWord as [|c rest]; [reflexivity|].
  simpl. change (isWord (Some oracle) w) with oracle.
  destruct (oracle (toLowerCase (c :: rest))); [reflexivity|].
  now destruct (collect_hits oracle _).
Qed.

(** The ways [correct] can end. *)
Lemma correct_cases rawWord oracle w :
  let lower := toLowerCase rawWord in
  let hits := collect_hits oracle (candidates lower) in
  (rawWord = [] /\ correct rawWord oracle w = rawWord) \/
  (rawWord <> [] /\ oracle lower = true /\ correct rawWord oracle w = rawWord) \/
  (rawWord <> [] /\ oracle lower = false /\ hits = [] /\
   correct rawWord oracle w = rawWord) \/
  (rawWord <> [] /\ oracle lower = false /\
   exists k best, first_minimum lower hits k best /\
                  correct rawWord oracle w = preserveCase rawWord (Some best)).
Proof.
  intros lower hits. unfold correct, getCorrection.
  rewrite getCorrection_over_oracle. simpl.
  destruct rawWord as [|c rest]; [now left|]. right.
  fold lower. destruct (oracle lower) eqn:Ho; [now left|]. right.
  fold hits. destruct hits as [|h hits'] eqn:Hh; [now left|]. right.
  repeat split; [discriminate|].
  destruct (select_best_first_minimum lower (h :: hits')) as (k & best & -> & Hfm);
    [discriminate|].
  now exists k, best.
Qed.
End OrchestratorFacts.

(** ** The case preserver *)

Lemma preserveCase_nonempty toUpperCase original corrected :
  (forall s, s <> [] -> toUpperCase s <> []) ->
  original <> [] -> corrected <> [] ->
  preserveCase toUpperCase original (Some corrected) <> [].
Proof.
  intros Hup Ho Hc. unfold preserveCase.
  destruct corrected as [|c0 rest]; [contradiction|].
  destruct (decide _); [now apply Hup|].
  destruct original as [|o0 ?]; [contradiction|].
  destruct (decide _); [|discriminate].
  intros H%app_eq_nil. destruct H as [H _]. now apply Hup in H.
Qed.

(** ** Distances of the candidates *)

Lemma levenshtein_zero a b : levenshtein a b = 0 -> a = b.
Proof.
  rewrite levenshtein_lev_rec. intros H.
  pose proof (lev_rec_attained a b) as He.
  replace (lev_rec a b) with 0%nat in He by lia.
  now inversion He.
Qed.

Lemma levenshtein_edit_step a b : edit_step a b -> levenshtein a b <= 1.
Proof.
  intros Hs. rewrite levenshtein_lev_rec.
  assert (H : edits 1 a b) by (eapply edits_S; [exact Hs|constructor]).
  apply lev_rec_least in H. lia.
Qed.

Lemma deletion_of_step lower c : deletion_of lower c -> edit_step lower c.
Proof.
  intros (i & Hi & ->).
  destruct (lookup_lt_is_Some_2 lower i Hi) as [x Hx].
  rewrite <- (take_drop i lower) at 1.
  rewrite (drop_S lower x i Hx), Nat.add_1_r. constructor.
Qed.

Lemma insertion_of_step lower c : insertion_of lower c -> edit_step lower c.
Proof.
  intros (i & x & Hi & _ & ->).
  rewrite <- (take_drop i lower) at 1. constructor.
Qed.

Lemma substitution_of_step lower c : substitution_of lower c -> edit_step lower c.
Proof.
  intros (i & x & Hi & _ & Hne & ->).
  destruct (lookup_lt_is_Some_2 lower i Hi) as [y Hy].
  rewrite <- (take_drop i lower) at 1.
  rewrite (drop_S lower y i Hy), Nat.add_1_r. constructor. congruence.
Qed.

Lemma edit_step_length a b :
  edit_step a b -> (length a <= length b + 1)%nat.
Proof.
  intros [p x s|p x s|p x y s _]; rewrite !length_app; simpl; lia.
Qed.

Lemma edits_length n a b : edits n a b -> (length a <= length b + n)%nat.
Proof.
  induction 1 as [|n a b c Hs _ IH]; [lia|].
  apply edit_step_length in Hs. lia.
Qed.

Lemma edits_app_l p n a b : edits n a b -> edits n (p ++ a) (p ++ b).
Proof.
  intros H. induction p as [|z p IH]; [exact H|]. simpl. now apply edits_cons.
Qed.

Lemma edits_drop_prefix p s : edits (length p) (p ++ s) s.
Proof.
  induction p as [|z p IH]; [constructor|]. simpl.
  eapply edits_S; [apply (edit_delete [] z (p ++ s))|exact IH].
Qed.

Lemma length_expand_collapse rs rs' :
  Forall (fun r => (1 <= len r)%nat) rs ->
  Forall2 (fun r r' => ch r' = ch r /\ allowed r (len r')) rs rs' ->
  (length (expand rs') <= length (expand rs))%nat /\
  edits (length (expand rs) - length (expand rs')) (expand rs) (expand rs').
Proof.
  intros Hlen H. induction H as [|r r' rs rs' [Hch Hk] _ IH]; simpl.
  - split; [lia|constructor].
  - apply Forall_cons in Hlen as [Hr Hlen].
    destruct (IH Hlen) as [Hle He]. clear IH.
    rewrite !length_app, !length_replicate, Hch.
    assert (Hkr : (len r' <= len r)%nat) by (destruct Hk as [->|[? ->]]; lia).
    split; [lia|].
    replace (len r + length (expand rs) - (len r' + length (expand rs')))%nat
      with ((len r - len r') + (length (expand rs) - length (expand rs')))%nat by lia.
    eapply edits_trans; [|apply edits_app_l, He].
    replace (len r) with ((len r - len r') + len r')%nat at 2 by lia.
    rewrite replicate_add, <- app_assoc.
    rewrite <- (length_replicate (len r - len r') (ch r)) at 1.
    apply edits_drop_prefix.
Qed.

(** A run-collapse variant is as far from the word as the number of code
    units the collapse removed. *)
Lemma repeatVariants_distance word v :
  v ∈ repeatVariants word ->
  (length v <= length word)%nat /\
  levenshtein word v = Z.of_nat (length word - length v).
Proof.
  intros (rs' & H & ->)%repeatVariants_elem.
  destruct (scan_runs_maximal word) as (Hexp & Hlen & _).
  destruct (length_expand_collapse _ _ Hlen H) as [Hle He].
  rewrite Hexp in *. split; [exact Hle|].
  rewrite levenshtein_lev_rec. f_equal.
  apply Nat.le_antisymm; [now apply lev_rec_least|].
  pose proof (edits_length _ _ _ (lev_rec_attained word (expand rs'))). lia.
Qed.

Lemma not_own_single_edit word :
  ~ deletion_of word word /\ ~ insertion_of word word /\ ~ substitution_of word word.
Proof.
  split; [|split].
  - intros (i & Hi & Heq). apply (f_equal length) in Heq.
    rewrite length_app, length_take, length_drop in Heq. lia.
  - intros (i & x & Hi & _ & Heq). apply (f_equal length) in Heq.
    rewrite length_app, length_take in Heq. simpl in Heq.
    rewrite length_drop in Heq. lia.
  - intros (i & x & Hi & _ & Hne & Heq).
    apply (f_equal (fun l => l !! i)) in Heq.
    rewrite lookup_app_r in Heq by (rewrite length_take; lia).
    rewrite length_take in Heq.
    replace (i - i `min` length word)%nat with 0%nat in Heq by lia.
    simpl in Heq. congruence.
Qed.


(** Every Hit is at distance at least 1; those of the deletion,
    insertion and substitution passes at exactly 1. *)
Lemma hit_distance lower oracle h :
  oracle lower = false ->
  h ∈ collect_hits oracle (candidates lower) ->
  1 <= levenshtein lower h /\
  (levenshtein lower h = 1 \/
   (h ∈ repeatVariants lower /\
    levenshtein lower h = Z.of_nat (length lower - length h))).
Proof.
  intros Ho (Hc & _ & Hh)%elem_of_collect_hits.
  assert (H1 : 1 <= levenshtein lower h).
  { destruct (decide (levenshtein lower h = 0)) as [Hz|Hz].
    - apply levenshtein_zero in Hz. congruence.
    - rewrite levenshtein_lev_rec in *. lia. }
  split; [exact H1|].
  apply candidates_elem in Hc as [Hv|[Hd|[Hi|Hs]]].
  - right. split; [exact Hv|]. now apply repeatVariants_distance.
  - left. apply deletion_of_step, levenshtein_edit_step in Hd. lia.
  - left. apply insertion_of_step, levenshtein_edit_step in Hi. lia.
  - left. apply substitution_of_step, levenshtein_edit_step in Hs. lia.
Qed.


(** ** Case mappings on Basic Latin *)

Lemma lower_unit_plain c : (c < 128)%N -> plain (lower_unit c).
Proof.
  intros Hc. unfold lower_unit.
  destruct (N.leb_spec 65 c), (N.leb_spec c 90); simpl;
    repeat constructor; lia.
Qed.

Lemma toLowerCase_latin_plain s : basic_latin s -> plain (toLowerCase_latin s).
Proof.
  unfold toLowerCase_latin.
  induction 1 as [|c s Hc _ IH]; [constructor|].
  rewrite bind_cons. apply Forall_app. split; [now apply lower_unit_plain|exact IH].
Qed.

Lemma plain_basic_latin s : plain s -> basic_latin s.
Proof. intros H. eapply Forall_impl; [exact H|]. now intros c [Hc _]. Qed.

Lemma lower_unit_of_plain c : plain_unit c -> lower_unit c = [c].
Proof.
  intros [_ Hc]. unfold lower_unit.
  destruct (N.leb_spec 65 c), (N.leb_spec c 90); simpl; try reflexivity. lia.
Qed.

Lemma toLowerCase_latin_of_plain s : plain s -> toLowerCase_latin s = s.
Proof.
  unfold toLowerCase_latin.
  induction 1 as [|c s Hc _ IH]; [reflexivity|].
  now rewrite bind_cons, IH, lower_unit_of_plain.
Qed.

Lemma upper_unit_of_plain c :
  plain_unit c ->
  basic_latin (upper_unit c) /\ toLowerCase_latin (upper_unit c) = [c].
Proof.
  intros [Hc Hnot]. unfold upper_unit, toLowerCase_latin.
  destruct (N.leb_spec 97 c), (N.leb_spec c 122); simpl.
  - split; [repeat constructor; lia|].
    unfold lower_unit.
    destruct (N.leb_spec 65 (c - 32)), (N.leb_spec (c - 32) 90); simpl; try lia.
    f_equal. lia.
  - destruct (N.eqb_spec c 223); [lia|].
    split; [repeat constructor; lia|]. simpl.
    now rewrite lower_unit_of_plain.
  - destruct (N.eqb_spec c 223); [lia|].
    split; [repeat constructor; lia|]. simpl.
    now rewrite lower_unit_of_plain.
  - lia.
Qed.

Lemma toUpperCase_latin_of_plain s :
  plain s ->
  basic_latin (toUpperCase_latin s) /\
  toLowerCase_latin (toUpperCase_latin s) = s.
Proof.
  unfold toUpperCase_latin.
  induction 1 as [|c s Hc _ [IH1 IH2]]; [split; [constructor|reflexivity]|].
  destruct (upper_unit_of_plain c Hc) as [H1 H2].
  rewrite bind_cons. split; [apply Forall_app; now split|].
  unfold toLowerCase_latin in *. now rewrite bind_app, H2, IH2.
Qed.

(** ** Candidates of a plain word are plain *)

Lemma alphabet_plain x : x ∈ alphabet -> plain_unit x.
Proof.
  revert x. apply Forall_forall. unfold alphabet, plain_unit.
  repeat constructor; lia.
Qed.

Lemma expand_plain rs :
  Forall (fun r => plain_unit (ch r)) rs -> plain (expand rs).
Proof.
  induction 1 as [|r rs Hr _ IH]; [constructor|]. simpl.
  apply Forall_app. split; [|exact IH]. now apply Forall_replicate.
Qed.

Lemma plain_expand rs :
  Forall (fun r => (1 <= len r)%nat) rs -> plain (expand rs) ->
  Forall (fun r => plain_unit (ch r)) rs.
Proof.
  induction 1 as [|r rs Hr _ IH]; [constructor|]. simpl.
  intros [H1 H2]%Forall_app. constructor; [|now apply IH].
  destruct (len r) as [|n]; [lia|]. simpl in H1. now inversion H1.
Qed.

Lemma repeatVariants_plain word v :
  plain word -> v ∈ repeatVariants word -> plain v.
Proof.
  intros Hw (rs' & H & ->)%repeatVariants_elem.
  destruct (scan_runs_maximal word) as (Hexp & Hlen & _).
  rewrite <- Hexp in Hw. apply plain_expand in Hw; [|exact Hlen].
  apply expand_plain.
  clear Hexp Hlen. induction H as [|r r' rs rs' [Hch _] _ IH]; [constructor|].
  apply Forall_cons in Hw as [Hr Hw].
  constructor; [now rewrite Hch|now apply IH].
Qed.

Lemma candidates_plain lower c :
  plain lower -> c ∈ candidates lower -> plain c.
Proof.
  intros Hl [Hv|[(i & _ & ->)|[(i & x & _ & Hx & ->)|(i & x & _ & Hx & _ & ->)]]]%candidates_elem.
  - now apply (repeatVariants_plain lower).
  - apply Forall_app. split; [now apply Forall_take|now apply Forall_drop].
  - apply Forall_app. split; [now apply Forall_take|].
    constructor; [now apply alphabet_plain|now apply Forall_drop].
  - apply Forall_app. split; [now apply Forall_take|].
    constructor; [now apply alphabet_plain|now apply Forall_drop].
Qed.

(** ** A second invocation *)


Lemma correct_of_accepted toLowerCase toUpperCase word oracle w :
  oracle (toLowerCase word) = true ->
  correct toLowerCase toUpperCase word oracle w = word.
Proof.
  intros Ho. unfold correct, getCorrection.
  rewrite getCorrection_over_oracle, Ho. now destruct word.
Qed.

(** Lower-casing the case-adjusted form of a plain correction gives the
    correction back. *)
Lemma toLowerCase_preserveCase toLowerCase toUpperCase original corrected :
  latin_case_maps toLowerCase toUpperCase ->
  plain corrected -> corrected <> [] ->
  toLowerCase (preserveCase toUpperCase original (Some corrected)) = corrected.
Proof.
  intros Hmaps Hc Hne. unfold preserveCase.
  destruct corrected as [|c0 rest]; [contradiction|].
  assert (Hlow : toLowerCase (c0 :: rest) = c0 :: rest).
  { destruct (Hmaps (c0 :: rest)) as [-> _]; [now apply plain_basic_latin|].
    now apply toLowerCase_latin_of_plain. }
  destruct (decide (toUpperCase original = original)) as [_|_].
  - destruct (Hmaps (c0 :: rest)) as [_ ->]; [now apply plain_basic_latin|].
    destruct (toUpperCase_latin_of_plain (c0 :: rest) Hc) as [Hb Hround].
    destruct (Hmaps _ Hb) as [-> _]. exact Hround.
  - destruct original as [|o0 original']; [exact Hlow|].
    destruct (decide (toUpperCase [o0] = [o0])) as [_|_]; [|exact Hlow].
    apply Forall_cons in Hc as [Hc0 Hrest].
    assert (Hc0' : plain [c0]) by now constructor.
    destruct (Hmaps [c0]) as [_ ->]; [now apply plain_basic_latin|].
    destruct (toUpperCase_latin_of_plain [c0] Hc0') as [Hb Hround].
    assert (Hb' : basic_latin (toUpperCase_latin [c0] ++ rest)).
    { apply Forall_app. split; [exact Hb|now apply plain_basic_latin]. }
    destruct (Hmaps _ Hb') as [-> _].
    unfold toLowerCase_latin in *. rewrite bind_app, Hround.
    fold (toLowerCase_latin rest). now rewrite toLowerCase_latin_of_plain.
Qed.


Lemma round_trip_on_basic_latin toLowerCase toUpperCase rawWord oracle best :
  latin_case_maps toLowerCase toUpperCase -> basic_latin rawWord ->
  best ∈ collect_hits oracle (candidates (toLowerCase rawWord)) ->
  toLowerCase (preserveCase toUpperCase rawWord (Some best)) = best.
Proof.
  intros Hmaps Hraw (Hc & Hne & _)%elem_of_collect_hits.
  apply toLowerCase_preserveCase; try assumption.
  apply (candidates_plain (toLowerCase rawWord)); [|exact Hc].
  destruct (Hmaps rawWord Hraw) as [-> _]. now apply toLowerCase_latin_plain.
Qed.

(** ** Any platform agrees with the Basic Latin mappings on Basic Latin words *)

Lemma select_best_elem lower hits best :
  select_best lower hits = Some best -> best ∈ hits.
Proof.
  unfold select_best.
  destruct (select_best_state lower hits) as [[_ ->]|(k & b & (Hk & _) & ->)];
    [discriminate|].
  intros [= <-]. now apply list_elem_of_lookup_2 in Hk.
Qed.

Lemma preserveCase_latin toLowerCase toUpperCase original corrected :
  latin_case_maps toLowerCase toUpperCase ->
  basic_latin original -> basic_latin corrected ->
  preserveCase toUpperCase original (Some corrected)
  = preserveCase toUpperCase_latin original (Some corrected).
Proof.
  intros Hmaps Ho Hc. unfold preserveCase.
  destruct corrected as [|c0 rest]; [reflexivity|].
  destruct (Hmaps original Ho) as [_ ->].
  destruct (Hmaps (c0 :: rest) Hc) as [_ ->].
  destruct (decide _); [reflexivity|].
  destruct original as [|o0 original']; [reflexivity|].
  apply Forall_cons in Ho as [Ho0 _]. apply Forall_cons in Hc as [Hc0 _].
  destruct (Hmaps [o0]) as [_ ->]; [now constructor|].
  destruct (Hmaps [c0]) as [_ ->]; [now constructor|].
  reflexivity.
Qed.

Lemma correct_latin toLowerCase toUpperCase rawWord oracle w :
  latin_case_maps toLowerCase toUpperCase -> basic_latin rawWord ->
  correct toLowerCase toUpperCase rawWord oracle w
  = correct toLowerCase_latin toUpperCase_latin rawWord oracle w.
Proof.
  intros Hmaps Hraw. unfold correct, getCorrection.
  rewrite !getCorrection_over_oracle. simpl.
  destruct (Hmaps rawWord Hraw) as [-> _].
  destruct rawWord as [|c rest]; [reflexivity|].
  destruct (oracle _); [reflexivity|].
  destruct (collect_hits oracle _) as [|h hits] eqn:Hh; [reflexivity|].
  destruct (select_best _ (h :: hits)) as [best|] eqn:Hb; [|reflexivity].
  apply (preserveCase_latin toLowerCase); [exact Hmaps|exact Hraw|].
  apply select_best_elem in Hb. rewrite <- Hh in Hb.
  apply elem_of_collect_hits in Hb as (Hc & _).
  apply plain_basic_latin, (candidates_plain _ _ (toLowerCase_latin_plain _ Hraw) Hc).
Qed.

Lemma latin_case_maps_latin : latin_case_maps toLowerCase_latin toUpperCase_latin.
Proof. intros s _. now split. Qed.

(** * Main results *)

(** C1: for a non-empty [rawWord] whose lower-cased form the oracle
    accepts, [correct] returns [rawWord] unchanged, whatever the
    candidate generator would produce: the result is the same over
    every generator. *)
Theorem known_word_returned_unchanged
    (toLowerCase toUpperCase : jsstring -> jsstring)
    (generate : jsstring -> list jsstring)
    (rawWord : jsstring) (oracle : jsstring -> bool) (w : world) :
  rawWord <> [] ->
  oracle (toLowerCase rawWord) = true ->
  getCorrection_over toLowerCase toUpperCase generate rawWord (Some oracle) w
  = (rawWord, w) /\
  correct toLowerCase toUpperCase rawWord oracle w = rawWord.
Proof.
  intros Hne Ho.
  assert (H : forall g, getCorrection_over toLowerCase toUpperCase g rawWord
                          (Some oracle) w = (rawWord, w)).
  { intros g. rewrite getCorrection_over_oracle, Ho. now destruct rawWord. }
  split; [apply H|]. unfold correct, getCorrection. now rewrite H.
Qed.

Lemma known_word_returned_unchanged_witness :
  js "Cool" <> [] /\
  knows [js "cool"] (toLowerCase_latin (js "Cool")) = true /\
  correct toLowerCase_latin toUpperCase_latin (js "Cool") (knows [js "cool"]) fresh
  = js "Cool".
Proof.
  split; [discriminate|]. split; [vm_compute; reflexivity|].
  apply (known_word_returned_unchanged toLowerCase_latin toUpperCase_latin
           candidates (js "Cool") (knows [js "cool"]) fresh);
    [discriminate|vm_compute; reflexivity].
Defined.

(** C2: when [rawWord] is empty, or when there is no Hit (no generated
    candidate satisfies the oracle, as when the oracle rejects every
    string), [correct] returns [rawWord] itself and leaves the module
    state alone; the function is total, so no error is signalled. *)
Theorem no_hit_returned_unchanged
    (toLowerCase toUpperCase : jsstring -> jsstring)
    (rawWord : jsstring) (oracle : jsstring -> bool) (w : world) :
  rawWord = [] \/
  collect_hits oracle (candidates (toLowerCase rawWord)) = [] \/
  (forall c, c ∈ candidates (toLowerCase rawWord) -> oracle c = false) \/
  (forall x, oracle x = false) ->
  getCorrection toLowerCase toUpperCase rawWord (Some oracle) w = (rawWord, w) /\
  correct toLowerCase toUpperCase rawWord oracle w = rawWord.
Proof.
  intros H.
  enough (H' : getCorrection toLowerCase toUpperCase rawWord (Some oracle) w
               = (rawWord, w)) by (unfold correct; now rewrite H').
  unfold getCorrection. rewrite getCorrection_over_oracle.
  destruct H as [->|H]; [reflexivity|].
  assert (Hhits : collect_hits oracle (candidates (toLowerCase rawWord)) = []).
  { destruct H as [H|[H|H]]; [exact H| |]; apply collect_hits_nil; auto. }
  rewrite Hhits. destruct rawWord; [reflexivity|].
  now destruct (oracle _).
Qed.

Lemma no_hit_returned_unchanged_witness :
  (forall x : jsstring, (fun _ : jsstring => false) x = false) /\
  correct toLowerCase_latin toUpperCase_latin (js "Xq") (fun _ => false) fresh
  = js "Xq".
Proof.
  split; [reflexivity|].
  apply (no_hit_returned_unchanged toLowerCase_latin toUpperCase_latin
           (js "Xq") (fun _ => false) fresh).
  right; right; right. reflexivity.
Defined.

(** C3: [levenshtein a b] is the classic edit distance: a chain of that
    many single-code-unit insertions, deletions and substitutions turns
    [a] into [b] and no chain is shorter; it is a non-negative integer;
    and the whole table is computed: every cell holds the distance
    between the corresponding prefixes. *)
Theorem levenshtein_is_edit_distance (a b : jsstring) :
  0 <= levenshtein a b /\
  edits (Z.to_nat (levenshtein a b)) a b /\
  (forall n, edits n a b -> levenshtein a b <= Z.of_nat n) /\
  (forall i j, (i <= length a)%nat -> (j <= length b)%nat ->
     cell (levenshtein_table a b) i j = levenshtein (take i a) (take j b)).
Proof.
  rewrite levenshtein_lev_rec. repeat split.
  - lia.
  - rewrite Nat2Z.id. apply lev_rec_attained.
  - intros n Hn. apply lev_rec_least in Hn. lia.
  - intros i j Hi Hj.
    destruct (levenshtein_table_known a b) as [_ H].
    rewrite H by (trivial || lia).
    unfold prefix_distance. now rewrite lev_rec_rev, levenshtein_lev_rec.
Qed.

(** C4: [repeatVariants word] is exactly the set of strings obtained by
    encoding [word] into maximal runs and giving every run of length
    greater than 1 the length 1 or 2, runs of length 1 being kept; and
    with an oracle that recognises only "cool", [correct("coooool")] is
    "cool". *)
Theorem repeatVariants_run_collapse :
  (forall word : jsstring,
     NoDup (repeatVariants word) /\
     exists runs,
       maximal_runs runs word /\
       (forall runs', maximal_runs runs' word -> runs' = runs) /\
       forall v, v ∈ repeatVariants word <-> collapse_of runs v) /\
  (forall toLowerCase toUpperCase w,
     latin_case_maps toLowerCase toUpperCase ->
     correct toLowerCase toUpperCase (js "coooool") (knows [js "cool"]) w
     = js "cool").
Proof.
  split.
  - intros word. split.
    + apply backtrack_NoDup, NoDup_nil_2.
    + exists (scan_runs word). split; [apply scan_runs_maximal|]. split.
      * intros runs' H. apply (maximal_runs_unique _ _ word H), scan_runs_maximal.
      * apply repeatVariants_elem.
  - intros toLowerCase toUpperCase w Hmaps.
    rewrite (correct_latin _ _ _ _ _ Hmaps) by repeat constructor.
    vm_compute. reflexivity.
Qed.

Lemma repeatVariants_run_collapse_witness :
  latin_case_maps toLowerCase_latin toUpperCase_latin /\
  correct toLowerCase_latin toUpperCase_latin (js "coooool") (knows [js "cool"]) fresh
  = js "cool".
Proof.
  split; [exact latin_case_maps_latin|].
  apply (proj2 repeatVariants_run_collapse toLowerCase_latin toUpperCase_latin fresh
           latin_case_maps_latin).
Defined.

(** C5: when Hits were collected and there is one, [correct] picks a Hit
    whose distance to the normalized token is least among all Hits, the
    first such Hit in discovery order (the order of the candidate set,
    filtered), and returns it through [preserveCase]. *)
Theorem best_hit_is_first_minimum
    (toLowerCase toUpperCase : jsstring -> jsstring)
    (rawWord : jsstring) (oracle : jsstring -> bool) (w : world) :
  let lower := toLowerCase rawWord in
  let hits := collect_hits oracle (candidates lower) in
  rawWord <> [] -> oracle lower = false -> hits <> [] ->
  hits = filter (fun c => c <> [] /\ oracle c = true) (candidates lower) /\
  exists k best,
    first_minimum lower hits k best /\
    correct toLowerCase toUpperCase rawWord oracle w
    = preserveCase toUpperCase rawWord (Some best).
Proof.
  intros lower hits Hne Ho Hhits. split; [apply collect_hits_filter|].
  destruct (correct_cases toLowerCase toUpperCase rawWord oracle w)
    as [[? _]|[(_ & Ht & _)|[(_ & _ & Hnil & _)|(_ & _ & H)]]];
    try contradiction; [fold lower in Ht; congruence|exact H].
Qed.

Lemma best_hit_is_first_minimum_witness :
  js "bit" <> [] /\
  knows [js "bid"; js "bat"] (toLowerCase_latin (js "bit")) = false /\
  collect_hits (knows [js "bid"; js "bat"]) (candidates (toLowerCase_latin (js "bit")))
  <> [] /\
  exists k best,
    first_minimum (toLowerCase_latin (js "bit"))
      (collect_hits (knows [js "bid"; js "bat"])
         (candidates (toLowerCase_latin (js "bit")))) k best /\
    correct toLowerCase_latin toUpperCase_latin (js "bit")
      (knows [js "bid"; js "bat"]) fresh
    = preserveCase toUpperCase_latin (js "bit") (Some best).
Proof.
  split; [discriminate|]. split; [vm_compute; reflexivity|].
  split; [vm_compute; discriminate|].
  apply (best_hit_is_first_minimum toLowerCase_latin toUpperCase_latin
           (js "bit") (knows [js "bid"; js "bat"]) fresh);
    [discriminate|vm_compute; reflexivity|vm_compute; discriminate].
Defined.

Example correct_bit_first_of_two w :
  collect_hits (knows [js "bid"; js "bat"]) (candidates (js "bit"))
  = [js "bat"; js "bid"] /\
  correct toLowerCase_latin toUpperCase_latin (js "bit") (knows [js "bid"; js "bat"]) w
  = js "bat".
Proof. split; vm_compute; reflexivity. Qed.







(** C8: for a non-empty [rawWord], [correct] returns a non-empty string,
    given that upper-casing never erases a non-empty string: every Hit
    is non-empty, so the string handed to [preserveCase] is a non-empty
    Hit and its branch for an empty correction is not taken. *)
Theorem correct_nonempty
    (toLowerCase toUpperCase : jsstring -> jsstring)
    (rawWord : jsstring) (oracle : jsstring -> bool) (w : world) :
  (forall s, s <> [] -> toUpperCase s <> []) ->
  rawWord <> [] ->
  let hits := collect_hits oracle (candidates (toLowerCase rawWord)) in
  correct toLowerCase toUpperCase rawWord oracle w <> [] /\
  Forall (fun h => h <> []) hits /\
  (hits <> [] ->
   exists best, select_best (toLowerCase rawWord) hits = Some best /\
                best ∈ hits /\ best <> []).
Proof.
  intros Hup Hne hits.
  assert (Hall : Forall (fun h => h <> []) hits).
  { apply Forall_forall. intros h Hh.
    now apply elem_of_collect_hits in Hh as (_ & ? & _). }
  split; [|split; [exact Hall|]].
  - destruct (correct_cases toLowerCase toUpperCase rawWord oracle w)
      as [[? _]|[(_ & _ & ->)|[(_ & _ & _ & ->)|(_ & _ & k & best & Hfm & ->)]]];
      try assumption; [contradiction|].
    apply preserveCase_nonempty; try assumption.
    destruct Hfm as (Hk%list_elem_of_lookup_2 & _).
    rewrite Forall_forall in Hall. now apply Hall.
  - intros Hhits.
    destruct (select_best_first_minimum (toLowerCase rawWord) hits Hhits)
      as (k & best & Hsel & Hk%list_elem_of_lookup_2 & _).
    exists best. repeat split; try assumption.
    rewrite Forall_forall in Hall. now apply Hall.
Qed.

Lemma toUpperCase_latin_nonempty s : s <> [] -> toUpperCase_latin s <> [].
Proof.
  destruct s as [|c s]; [congruence|]. intros _.
  unfold toUpperCase_latin. rewrite bind_cons. unfold upper_unit.
  destruct (_ && _); [discriminate|]. destruct (_ =? _)%N; discriminate.
Qed.

Lemma correct_nonempty_witness :
  js "Helllo" <> [] /\
  correct toLowerCase_latin toUpperCase_latin (js "Helllo") (knows [js "hello"]) fresh
  <> [].
Proof.
  split; [discriminate|].
  apply (correct_nonempty toLowerCase_latin toUpperCase_latin
           (js "Helllo") (knows [js "hello"]) fresh);
    [exact toUpperCase_latin_nonempty|discriminate].
Defined.




(** C10: with a predicate supplied, the result of [getCorrection] is the
    same from any two states of the module, and the call leaves the
    state as it found it: no load is started and the cache is not
    written. *)
Theorem supplied_predicate_ignores_cache
    (toLowerCase toUpperCase : jsstring -> jsstring)
    (rawWord : jsstring) (hasWord : jsstring -> bool) (w1 w2 : world) :
  fst (getCorrection toLowerCase toUpperCase rawWord (Some hasWord) w1)
  = fst (getCorrection toLowerCase toUpperCase rawWord (Some hasWord) w2) /\
  snd (getCorrection toLowerCase toUpperCase rawWord (Some hasWord) w1) = w1 /\
  snd (getCorrection toLowerCase toUpperCase rawWord (Some hasWord) w2) = w2.
Proof.
  unfold getCorrection. rewrite !getCorrection_over_oracle. now repeat split.
Qed.

(** Without a predicate the cache is read and, when it is empty, a load
    is started. *)
Example getCorrection_without_predicate :
  getCorrection toLowerCase_latin toUpperCase_latin (js "helllo") None fresh
  = (js "helllo", World None true [words_url]) /\
  getCorrection toLowerCase_latin toUpperCase_latin (js "helllo") None
    (loadWordsDataset_settle [js "hello"] fresh)
  = (js "hello", loadWordsDataset_settle [js "hello"] fresh).
Proof. split; vm_compute; reflexivity. Qed.

(** * Further properties of the code *)

(** ** levenshtein as a metric *)

Lemma lev_rec_triangle a b c : (lev_rec a c <= lev_rec a b + lev_rec b c)%nat.
Proof.
  apply lev_rec_least.
  eapply edits_trans; apply lev_rec_attained.
Qed.

Lemma lev_rec_cons_same x a b : lev_rec (x :: a) (x :: b) = lev_rec a b.
Proof.
  rewrite lev_rec_cons.
  pose proof (lev_rec_delete_head x b a).
  pose proof (lev_rec_delete_head x a b) as H'.
  rewrite (lev_rec_sym b a), (lev_rec_sym b (x :: a)) in H'.
  destruct (decide (x = x)); [lia|congruence].
Qed.

Lemma lev_rec_app_same p a b : lev_rec (p ++ a) (p ++ b) = lev_rec a b.
Proof.
  induction p as [|x p IH]; [reflexivity|].
  rewrite <- !app_comm_cons. now rewrite lev_rec_cons_same.
Qed.

Lemma lev_rec_upper a : forall b, (lev_rec a b <= Nat.max (length a) (length b))%nat.
Proof.
  induction a as [|x a IH]; intros b; [simpl; lia|].
  destruct b as [|y b]; [simpl; lia|].
  rewrite lev_rec_cons. specialize (IH b). cbn [length].
  destruct (decide (x = y)); lia.
Qed.

Lemma lev_rec_lower a b : (length a - length b <= lev_rec a b)%nat.
Proof.
  pose proof (edits_length _ _ _ (lev_rec_attained a b)). lia.
Qed.

(** X1: [levenshtein] is a metric on strings: it is 0 exactly on equal
    strings, symmetric, and satisfies the triangle inequality. *)
Theorem levenshtein_metric (a b c : jsstring) :
  (levenshtein a b = 0 <-> a = b) /\
  levenshtein a b = levenshtein b a /\
  levenshtein a c <= levenshtein a b + levenshtein b c.
Proof.
  split; [|split].
  - split; [apply levenshtein_zero|].
    intros ->. now rewrite levenshtein_lev_rec, lev_rec_refl.
  - now rewrite !levenshtein_lev_rec, lev_rec_sym.
  - rewrite !levenshtein_lev_rec. pose proof (lev_rec_triangle a b c). lia.
Qed.

(** X2: the distance lies between the difference of the two lengths and
    the greater length; against the empty string it is the length of the
    other string. *)
Theorem levenshtein_bounds (a b : jsstring) :
  Z.abs (Z.of_nat (length a) - Z.of_nat (length b)) <= levenshtein a b /\
  levenshtein a b <= Z.max (Z.of_nat (length a)) (Z.of_nat (length b)) /\
  levenshtein [] b = Z.of_nat (length b) /\
  levenshtein a [] = Z.of_nat (length a).
Proof.
  rewrite !levenshtein_lev_rec, lev_rec_nil_r.
  pose proof (lev_rec_lower a b). pose proof (lev_rec_lower b a) as H'.
  rewrite (lev_rec_sym b a) in H'.
  pose proof (lev_rec_upper a b).
  repeat split; simpl; lia.
Qed.

(** X3: a common prefix and a common suffix do not count: the distance
    between [p ++ a ++ s] and [p ++ b ++ s] is the distance between [a]
    and [b]. *)
Theorem levenshtein_common_affixes (p s a b : jsstring) :
  levenshtein (p ++ a ++ s) (p ++ b ++ s) = levenshtein a b.
Proof.
  rewrite !levenshtein_lev_rec. f_equal.
  rewrite lev_rec_app_same.
  rewrite <- (lev_rec_rev (a ++ s)), !rev_app_distr, lev_rec_app_same.
  apply lev_rec_rev.
Qed.

(** ** The shape of the run-collapse variants *)

Lemma collapse_maximal rs rs' word :
  maximal_runs rs word ->
  Forall2 (fun r r' => ch r' = ch r /\ allowed r (len r')) rs rs' ->
  maximal_runs rs' (expand rs') /\
  Forall (fun r' => (len r' <= 2)%nat) rs'.
Proof.
  intros (_ & _ & Hadj) H. split; [split; [reflexivity|split]|].
  - eapply Forall2_Forall_r; [exact H|]. apply Forall_forall.
    intros r _ r' [_ [->|[_ ->]]]; lia.
  - intros k r1' r2' H1 H2.
    destruct (Forall2_lookup_r _ _ _ _ _ H H1) as (r1 & Hr1 & Hc1 & _).
    destruct (Forall2_lookup_r _ _ _ _ _ H H2) as (r2 & Hr2 & Hc2 & _).
    rewrite Hc1, Hc2. eauto.
  - eapply Forall2_Forall_r; [exact H|]. apply Forall_forall.
    intros r _ r' [_ [->|[_ ->]]]; lia.
Qed.

Lemma short_runs_triple_free rs :
  maximal_runs rs (expand rs) ->
  Forall (fun r => (len r <= 2)%nat) rs ->
  triple_free (expand rs).
Proof.
  induction rs as [|r rs IH]; intros Hmax Hshort p c t Heq.
  - simpl in Heq. now destruct p.
  - pose proof (maximal_runs_tail _ _ _ Hmax) as Htail.
    pose proof Hmax as (_ & [Hr _]%Forall_cons & _).
    apply Forall_cons in Hshort as [Hr2 Hshort].
    specialize (IH Htail Hshort).
    assert (Hhd : forall u, expand rs = ch r :: u -> False).
    { intros u Hu. apply (maximal_runs_head r rs _ (ch r) Hmax); [|reflexivity].
      now rewrite Hu. }
    simpl in Heq.
    destruct (len r) as [|[|[|n]]]; try lia; simpl in Heq.
    + destruct p as [|y p]; simpl in Heq.
      * injection Heq as Hc Heq. rewrite <- Hc in Heq. eauto.
      * injection Heq as _ Heq. now apply IH in Heq.
    + destruct p as [|y [|z p]]; simpl in Heq.
      * injection Heq as Hc _ Heq. rewrite <- Hc in Heq. eauto.
      * injection Heq as _ Hc Heq. rewrite <- Hc in Heq. eauto.
      * injection Heq as _ _ Heq. now apply IH in Heq.
Qed.

Lemma triple_free_short_runs rs :
  triple_free (expand rs) -> Forall (fun r => (len r <= 2)%nat) rs.
Proof.
  induction rs as [|r rs IH]; intros Hfree; constructor.
  - destruct (le_lt_dec (len r) 2) as [|Hlong]; [assumption|exfalso].
    apply (Hfree [] (ch r) (replicate (len r - 3) (ch r) ++ expand rs)).
    simpl. replace (len r) with (3 + (len r - 3))%nat at 1 by lia. reflexivity.
  - apply IH. intros p c t Heq.
    apply (Hfree (replicate (len r) (ch r) ++ p) c t).
    simpl. now rewrite Heq, app_assoc.
Qed.

Lemma collapse_of_self rs :
  Forall (fun r => (1 <= len r <= 2)%nat) rs -> collapse_of rs (expand rs).
Proof.
  intros H. exists rs. split; [|reflexivity].
  induction H as [|r rs Hr _ IH]; constructor; [|exact IH].
  split; [reflexivity|]. unfold allowed. lia.
Qed.

Lemma repeatVariants_triple_free word v :
  v ∈ repeatVariants word -> triple_free v.
Proof.
  intros (rs' & H & ->)%repeatVariants_elem.
  destruct (collapse_maximal _ _ _ (scan_runs_maximal word) H) as [Hmax Hshort].
  now apply short_runs_triple_free.
Qed.

(** X4: a run-collapse variant is never longer than the word and never
    has a code unit three times in a row. *)
Theorem repeatVariants_short_runs (word v : jsstring) :
  v ∈ repeatVariants word ->
  (length v <= length word)%nat /\ triple_free v.
Proof.
  intros Hv. split; [now apply repeatVariants_distance|].
  now apply (repeatVariants_triple_free word).
Qed.

Lemma repeatVariants_short_runs_witness :
  js "cool" ∈ repeatVariants (js "coooool") /\
  (length (js "cool") <= length (js "coooool"))%nat /\ triple_free (js "cool").
Proof.
  assert (H : js "cool" ∈ repeatVariants (js "coooool")).
  { vm_compute. right. left. }
  split; [exact H|].
  apply (repeatVariants_short_runs (js "coooool") (js "cool") H).
Defined.

(** X5: a word is among its own run-collapse variants, and among its own
    candidates, exactly when no code unit occurs three times in a row in
    it; the deletion, insertion and substitution passes never give the
    word back. *)
Theorem word_among_own_candidates (word : jsstring) :
  (word ∈ repeatVariants word <-> triple_free word) /\
  (word ∈ candidates word <-> triple_free word) /\
  ~ deletion_of word word /\
  ~ insertion_of word word /\
  ~ substitution_of word word.
Proof.
  assert (H : word ∈ repeatVariants word <-> triple_free word).
  { split.
    - apply repeatVariants_triple_free.
    - intros Hfree. apply repeatVariants_elem.
      destruct (scan_runs_maximal word) as (Hexp & Hlen & _).
      rewrite <- Hexp at 2. apply collapse_of_self.
      rewrite <- Hexp in Hfree. apply triple_free_short_runs in Hfree.
      rewrite Forall_forall in *. intros r Hr.
      specialize (Hlen r Hr). specialize (Hfree r Hr). lia. }
  destruct (not_own_single_edit word) as (Hd & Hi & Hs).
  split; [exact H|]. split; [|now repeat split].
  rewrite <- H, candidates_elem. tauto.
Qed.

(** ** How many variants there are *)

Lemma foldl_set_add_fresh l : forall vs,
  NoDup (vs ++ l) -> foldl set_add vs l = vs ++ l.
Proof.
  induction l as [|x l IH]; intros vs Hnd; simpl; [now rewrite app_nil_r|].
  unfold set_add at 2. apply NoDup_app in Hnd as (Hvs & Hdisj & Hl).
  destruct (decide (x ∈ vs)) as [Hin|_].
  - exfalso. apply (Hdisj x Hin). left.
  - rewrite IH; [now rewrite <- app_assoc|].
    rewrite <- app_assoc. apply NoDup_app. repeat split; assumption.
Qed.









(** X7: collapsing is closed: a run-collapse variant of a run-collapse
    variant of a word is a run-collapse variant of the word. *)
Theorem repeatVariants_closed (word v u : jsstring) :
  v ∈ repeatVariants word -> u ∈ repeatVariants v -> u ∈ repeatVariants word.
Proof.
  intros (rs' & H & ->)%repeatVariants_elem Hu.
  apply repeatVariants_elem in Hu as (rs'' & H' & ->).
  apply repeatVariants_elem. exists rs''. split; [|reflexivity].
  destruct (collapse_maximal _ _ _ (scan_runs_maximal word) H) as [Hmax _].
  rewrite (maximal_runs_unique _ _ _ (scan_runs_maximal (expand rs')) Hmax) in H'.
  eapply Forall2_trans; [|exact H|exact H'].
  intros r r' r'' [Hc Hk] [Hc' Hk']. split; [congruence|].
  unfold allowed in *. lia.
Qed.

Lemma repeatVariants_closed_witness :
  js "cool" ∈ repeatVariants (js "coooool") /\
  js "col" ∈ repeatVariants (js "cool") /\
  js "col" ∈ repeatVariants (js "coooool").
Proof.
  assert (H1 : js "cool" ∈ repeatVariants (js "coooool")).
  { vm_compute. right. left. }
  assert (H2 : js "col" ∈ repeatVariants (js "cool")).
  { vm_compute. left. }
  split; [exact H1|]. split; [exact H2|].
  apply (repeatVariants_closed (js "coooool") (js "cool") (js "col") H1 H2).
Defined.

(** ** The single edits of the generator *)

Lemma take_drop_middle_eq (p s : jsstring) (c : code_unit) :
  take (length p) (p ++ c :: s) = p /\
  drop (length p) (p ++ c :: s) = c :: s /\
  drop (length p + 1) (p ++ c :: s) = s /\
  (p ++ c :: s) !! length p = Some c.
Proof.
  repeat split.
  - now rewrite take_app_length.
  - now rewrite drop_app_length.
  - replace (p ++ c :: s) with ((p ++ [c]) ++ s) by now rewrite <- app_assoc.
    replace (length p + 1)%nat with (length (p ++ [c]))
      by (rewrite length_app; reflexivity).
    now rewrite drop_app_length.
  - now rewrite list_lookup_middle.
Qed.

Lemma letter_edit_passes lower c :
  letter_edit lower c <->
  deletion_of lower c \/ insertion_of lower c \/ substitution_of lower c.
Proof.
  split.
  - intros [p x s|p x s Hx|p y x s Hx Hne].
    + left. exists (length p).
      destruct (take_drop_middle_eq p s x) as (-> & _ & -> & _).
      split; [rewrite length_app; simpl; lia|reflexivity].
    + right; left. exists (length p), x.
      rewrite take_app_length, drop_app_length.
      repeat split; [rewrite length_app; lia|exact Hx].
    + right; right. exists (length p), x.
      destruct (take_drop_middle_eq p s y) as (-> & _ & -> & ->).
      repeat split; [rewrite length_app; simpl; lia|exact Hx|congruence].
  - intros [(i & Hi & ->)|[(i & x & Hi & Hx & ->)|(i & x & Hi & Hx & Hne & ->)]].
    + destruct (lookup_lt_is_Some_2 lower i Hi) as [y Hy].
      rewrite <- (take_drop i lower) at 1.
      rewrite (drop_S lower y i Hy), Nat.add_1_r. constructor.
    + rewrite <- (take_drop i lower) at 1. now constructor.
    + destruct (lookup_lt_is_Some_2 lower i Hi) as [y Hy].
      rewrite <- (take_drop i lower) at 1.
      rewrite (drop_S lower y i Hy), Nat.add_1_r. constructor; congruence.
Qed.

Lemma letter_edit_step a b : letter_edit a b -> edit_step a b.
Proof. intros [p x s|p x s _|p y x s _ Hne]; now constructor. Qed.

(** X8: the candidate set is complete for single edits with letters:
    every string obtained from the token by deleting one code unit,
    inserting one letter a-z or replacing one code unit by a different
    letter a-z is a candidate, and every candidate is such a string or a
    run-collapse variant. *)
Theorem candidates_complete (lower c : jsstring) :
  c ∈ candidates lower <-> c ∈ repeatVariants lower \/ letter_edit lower c.
Proof. rewrite candidates_elem, letter_edit_passes. tauto. Qed.

(** X9: a dictionary word one letter edit away is never missed: for a
    non-empty [rawWord], when the oracle rejects the normalized token
    but accepts a non-empty string one letter edit away from it,
    [correct] returns the case-adjusted form of an accepted word at
    distance exactly 1. *)
Theorem one_edit_word_is_found
    (toLowerCase toUpperCase : jsstring -> jsstring)
    (rawWord word : jsstring) (oracle : jsstring -> bool) (w : world) :
  rawWord <> [] ->
  oracle (toLowerCase rawWord) = false ->
  letter_edit (toLowerCase rawWord) word ->
  word <> [] -> oracle word = true ->
  exists best,
    correct toLowerCase toUpperCase rawWord oracle w
    = preserveCase toUpperCase rawWord (Some best) /\
    oracle best = true /\
    levenshtein (toLowerCase rawWord) best = 1.
Proof.
  intros Hraw Ho Hedit Hne Hacc.
  assert (Hhit : word ∈ collect_hits oracle (candidates (toLowerCase rawWord))).
  { apply elem_of_collect_hits. repeat split; try assumption.
    apply candidates_elem. right. now apply letter_edit_passes. }
  destruct (correct_cases toLowerCase toUpperCase rawWord oracle w)
    as [[? _]|[(_ & Ht & _)|[(_ & _ & Hnil & _)|(_ & _ & k & best & Hfm & Hres)]]];
    [contradiction|congruence|rewrite Hnil in Hhit; now apply elem_of_nil in Hhit|].
  destruct Hfm as (Hk%list_elem_of_lookup_2 & Hmin & _).
  exists best. split; [exact Hres|]. split.
  - now apply elem_of_collect_hits in Hk as (_ & _ & ?).
  - pose proof (levenshtein_edit_step _ _ (letter_edit_step _ _ Hedit)).
    specialize (Hmin word Hhit).
    destruct (hit_distance _ _ _ Ho Hk) as [H1 _]. lia.
Qed.

Lemma one_edit_word_is_found_witness :
  js "ct" <> [] /\
  knows [js "cat"] (toLowerCase_latin (js "ct")) = false /\
  js "cat" <> [] /\ knows [js "cat"] (js "cat") = true /\
  exists best,
    correct toLowerCase_latin toUpperCase_latin (js "ct") (knows [js "cat"]) fresh
    = preserveCase toUpperCase_latin (js "ct") (Some best) /\
    knows [js "cat"] best = true /\
    levenshtein (toLowerCase_latin (js "ct")) best = 1.
Proof.
  split; [discriminate|]. split; [vm_compute; reflexivity|].
  split; [discriminate|]. split; [vm_compute; reflexivity|].
  apply (one_edit_word_is_found toLowerCase_latin toUpperCase_latin
           (js "ct") (js "cat") (knows [js "cat"]) fresh);
    [discriminate|vm_compute; reflexivity| |discriminate|vm_compute; reflexivity].
  apply (letter_insert [99%N] 97%N [116%N]). vm_compute. left.
Defined.

(** ** Size and order of the candidate set *)

Lemma set_add_length s x : (length (set_add s x) <= length s + 1)%nat.
Proof.
  unfold set_add. destruct (decide _); [lia|].
  rewrite length_app. simpl. lia.
Qed.

Lemma set_add_prefix s x : s `prefix_of` set_add s x.
Proof.
  unfold set_add. destruct (decide _); [reflexivity|]. now exists [x].
Qed.

Lemma foldl_length_bound {B : Type} (F : list jsstring -> B -> list jsstring) k :
  (forall cs y, (length (F cs y) <= length cs + k)%nat) ->
  forall ys cs, (length (foldl F cs ys) <= length cs + k * length ys)%nat.
Proof.
  intros HF. induction ys as [|y ys IH]; intros cs; simpl; [lia|].
  specialize (IH (F cs y)). specialize (HF cs y). lia.
Qed.

Lemma foldl_prefix {B : Type} (F : list jsstring -> B -> list jsstring) :
  (forall cs y, cs `prefix_of` F cs y) ->
  forall ys cs, cs `prefix_of` foldl F cs ys.
Proof.
  intros HF. induction ys as [|y ys IH]; intros cs; simpl; [reflexivity|].
  etransitivity; [apply HF|apply IH].
Qed.

Lemma repeatVariants_NoDup word : NoDup (repeatVariants word).
Proof. apply backtrack_NoDup, NoDup_nil_2. Qed.

(** X10: the run-collapse variants are discovered first, in their own
    order, and the other three passes add at most [53 * n + 26] strings
    for a token of [n] code units. *)
Theorem candidates_size (lower : jsstring) :
  repeatVariants lower `prefix_of` candidates lower /\
  (length (candidates lower)
   <= length (repeatVariants lower) + 53 * length lower + 26)%nat.
Proof.
  unfold candidates.
  rewrite (foldl_set_add_fresh (repeatVariants lower) [])
    by (rewrite app_nil_l; apply repeatVariants_NoDup).
  rewrite app_nil_l.
  assert (Hlen : length alphabet = 26%nat) by reflexivity.
  split.
  - etransitivity; [|apply foldl_prefix].
    + etransitivity; [|apply foldl_prefix].
      * apply foldl_prefix. intros; apply set_add_prefix.
      * intros cs i. apply foldl_prefix. intros; apply set_add_prefix.
    + intros cs i. apply foldl_prefix. intros cs' c.
      case_bool_decide; [apply set_add_prefix|reflexivity].
  - etransitivity; [apply (foldl_length_bound _ 26)|].
    + intros cs i. etransitivity; [apply (foldl_length_bound _ 1)|rewrite Hlen; lia].
      intros cs' c. case_bool_decide; [apply set_add_length|lia].
    + etransitivity; [apply Nat.add_le_mono_r, (foldl_length_bound _ 26)|].
      * intros cs i. etransitivity; [apply (foldl_length_bound _ 1)|rewrite Hlen; lia].
        intros cs' c. apply set_add_length.
      * etransitivity;
          [apply Nat.add_le_mono_r, Nat.add_le_mono_r, (foldl_length_bound _ 1)|].
        -- intros cs i. apply set_add_length.
        -- rewrite !length_seq. lia.
Qed.

(** ** What the oracle is asked *)

Lemma collect_hits_ext o1 o2 cs :
  (forall c, c ∈ cs -> c <> [] -> o1 c = o2 c) ->
  collect_hits o1 cs = collect_hits o2 cs.
Proof.
  intros H. rewrite !collect_hits_filter.
  induction cs as [|c cs IH]; [reflexivity|].
  assert (IH' : filter (fun c => c <> [] /\ o1 c = true) cs
                = filter (fun c => c <> [] /\ o2 c = true) cs).
  { apply IH. intros c' Hc'. apply H. now right. }
  rewrite !filter_cons, IH'.
  destruct (decide (c = [])) as [->|Hne].
  - destruct (decide _) as [[? _]|_]; [congruence|].
    destruct (decide _) as [[? _]|_]; [congruence|reflexivity].
  - assert (Hc : o1 c = o2 c) by (apply H; [left|exact Hne]).
    destruct (decide _) as [[_ H1]|H1], (decide _) as [[_ H2]|H2];
      try reflexivity; exfalso.
    + apply H2. split; congruence.
    + apply H1. split; congruence.
Qed.

(** X11: [correct] asks the oracle about the normalized token and its
    non-empty candidates only: two oracles that agree there give the same
    result, from any module states. *)
Theorem correct_oracle_extensional
    (toLowerCase toUpperCase : jsstring -> jsstring)
    (rawWord : jsstring) (o1 o2 : jsstring -> bool) (w w' : world) :
  o1 (toLowerCase rawWord) = o2 (toLowerCase rawWord) ->
  (forall c, c ∈ candidates (toLowerCase rawWord) -> c <> [] -> o1 c = o2 c) ->
  correct toLowerCase toUpperCase rawWord o1 w
  = correct toLowerCase toUpperCase rawWord o2 w'.
Proof.
  intros Hl Hc. unfold correct, getCorrection.
  rewrite !getCorrection_over_oracle. simpl.
  now rewrite Hl, (collect_hits_ext o1 o2 _ Hc).
Qed.

Lemma correct_oracle_extensional_witness :
  knows [js "cat"] (toLowerCase_latin (js "ct"))
  = knows [js "cat"; js "cat"] (toLowerCase_latin (js "ct")) /\
  correct toLowerCase_latin toUpperCase_latin (js "ct") (knows [js "cat"]) fresh
  = correct toLowerCase_latin toUpperCase_latin (js "ct")
      (knows [js "cat"; js "cat"]) fresh.
Proof.
  split; [vm_compute; reflexivity|].
  apply (correct_oracle_extensional toLowerCase_latin toUpperCase_latin
           (js "ct") (knows [js "cat"]) (knows [js "cat"; js "cat"]) fresh fresh);
    [vm_compute; reflexivity|].
  intros c _ _. unfold knows.
  apply bool_decide_ext. rewrite !elem_of_cons. tauto.
Defined.

(** ** The result on Basic Latin tokens *)

Lemma toLowerCase_latin_nil_inv s : toLowerCase_latin s = [] -> s = [].
Proof.
  destruct s as [|c s]; [reflexivity|].
  unfold toLowerCase_latin. rewrite bind_cons. unfold lower_unit.
  destruct (_ && _); discriminate.
Qed.

Lemma toUpperCase_latin_length s :
  basic_latin s -> length (toUpperCase_latin s) = length s.
Proof.
  unfold toUpperCase_latin.
  induction 1 as [|c s Hc _ IH]; [reflexivity|].
  rewrite bind_cons, length_app, IH. unfold upper_unit.
  destruct (_ && _); [reflexivity|].
  destruct (N.eqb_spec c 223); [lia|reflexivity].
Qed.

Lemma preserveCase_length toLowerCase toUpperCase original corrected :
  latin_case_maps toLowerCase toUpperCase ->
  plain corrected ->
  length (preserveCase toUpperCase original (Some corrected)) = length corrected
  \/ corrected = [].
Proof.
  intros Hmaps Hc. unfold preserveCase.
  destruct corrected as [|c0 rest]; [now right|left].
  destruct (decide _).
  - destruct (Hmaps (c0 :: rest)) as [_ ->]; [now apply plain_basic_latin|].
    now apply toUpperCase_latin_length, plain_basic_latin.
  - destruct original as [|o0 ?]; [reflexivity|].
    destruct (decide _); [|reflexivity].
    apply Forall_cons in Hc as [[Hc0 _] _].
    destruct (Hmaps [c0]) as [_ ->]; [now repeat constructor|].
    rewrite length_app, toUpperCase_latin_length by now repeat constructor.
    reflexivity.
Qed.

(** X12: on Basic Latin, [preserveCase] changes nothing but case: the
    result has the length of the correction and lower-cases back to it,
    whatever the original is. *)
Theorem preserveCase_only_case
    (toLowerCase toUpperCase : jsstring -> jsstring)
    (original corrected : jsstring) :
  latin_case_maps toLowerCase toUpperCase ->
  plain corrected -> corrected <> [] ->
  toLowerCase (preserveCase toUpperCase original (Some corrected)) = corrected /\
  length (preserveCase toUpperCase original (Some corrected)) = length corrected.
Proof.
  intros Hmaps Hc Hne. split; [now apply toLowerCase_preserveCase|].
  now destruct (preserveCase_length _ _ original _ Hmaps Hc).
Qed.

Lemma preserveCase_only_case_witness :
  plain (js "hello") /\ js "hello" <> [] /\
  toLowerCase_latin (preserveCase toUpperCase_latin (js "HELLLO") (Some (js "hello")))
  = js "hello" /\
  length (preserveCase toUpperCase_latin (js "HELLLO") (Some (js "hello")))
  = length (js "hello").
Proof.
  assert (H : plain (js "hello")).
  { repeat constructor; cbv; intros [? ?]; congruence. }
  split; [exact H|]. split; [discriminate|].
  apply (preserveCase_only_case toLowerCase_latin toUpperCase_latin
           (js "HELLLO") (js "hello") latin_case_maps_latin H).
  discriminate.
Defined.

(** The lower-case form of what [correct] returns, as a function of the
    normalized token alone. *)
Lemma toLowerCase_correct toLowerCase toUpperCase rawWord oracle w :
  latin_case_maps toLowerCase toUpperCase -> basic_latin rawWord ->
  rawWord <> [] ->
  toLowerCase (correct toLowerCase toUpperCase rawWord oracle w)
  = if oracle (toLowerCase rawWord) then toLowerCase rawWord
    else default (toLowerCase rawWord)
           (select_best (toLowerCase rawWord)
              (collect_hits oracle (candidates (toLowerCase rawWord)))).
Proof.
  intros Hmaps Hraw Hne.
  assert (Hplain : plain (toLowerCase rawWord)).
  { destruct (Hmaps rawWord Hraw) as [-> _]. now apply toLowerCase_latin_plain. }
  destruct (correct_cases toLowerCase toUpperCase rawWord oracle w)
    as [[? _]|[(_ & Ho & ->)|[(_ & Ho & Hnil & ->)|(_ & Ho & k & best & Hfm & ->)]]].
  - contradiction.
  - now rewrite Ho.
  - now rewrite Ho, Hnil.
  - rewrite Ho.
    set (lower := toLowerCase rawWord) in *.
    destruct (select_best_state lower (collect_hits oracle (candidates lower)))
      as [[Hnil _]|(k' & best' & Hfm' & Hst)].
    + destruct Hfm as (Hk & _). rewrite Hnil in Hk. discriminate.
    + assert (Hsame : best' = best).
      { destruct Hfm as (Hk & Hmin & Hfirst), Hfm' as (Hk' & Hmin' & Hfirst').
        destruct (Nat.lt_trichotomy k k') as [Hlt|[Heq|Hgt]].
        - specialize (Hfirst' k best Hlt Hk).
          specialize (Hmin best' (list_elem_of_lookup_2 _ _ _ Hk')). lia.
        - subst k'. congruence.
        - specialize (Hfirst k' best' Hgt Hk').
          specialize (Hmin' best (list_elem_of_lookup_2 _ _ _ Hk)). lia. }
      unfold select_best. rewrite Hst. simpl. subst best'.
      destruct Hfm as (Hk%list_elem_of_lookup_2 & _).
      apply elem_of_collect_hits in Hk as (Hc & Hbne & _).
      apply toLowerCase_preserveCase; try assumption.
      now apply (candidates_plain lower).
Qed.

(** X13: on Basic Latin tokens [correct] returns either its input or a
    word whose lower-case form the oracle accepts: a non-empty candidate
    of the normalized token, different from it. *)
Theorem correct_returns_known_word
    (toLowerCase toUpperCase : jsstring -> jsstring)
    (rawWord : jsstring) (oracle : jsstring -> bool) (w : world) :
  latin_case_maps toLowerCase toUpperCase -> basic_latin rawWord ->
  let result := correct toLowerCase toUpperCase rawWord oracle w in
  result = rawWord \/
  (oracle (toLowerCase result) = true /\
   toLowerCase result ∈ candidates (toLowerCase rawWord) /\
   toLowerCase result <> [] /\
   toLowerCase result <> toLowerCase rawWord).
Proof.
  intros Hmaps Hraw result.
  destruct (correct_cases toLowerCase toUpperCase rawWord oracle w)
    as [[_ Hr]|[(_ & _ & Hr)|[(_ & _ & _ & Hr)|(_ & Ho & k & best & Hfm & Hr)]]];
    try (left; exact Hr).
  right. unfold result. rewrite Hr.
  destruct Hfm as (Hk%list_elem_of_lookup_2 & _).
  rewrite (round_trip_on_basic_latin _ _ _ _ _ Hmaps Hraw Hk).
  apply elem_of_collect_hits in Hk as (Hc & Hne & Hacc).
  repeat split; try assumption. congruence.
Qed.

Lemma correct_returns_known_word_witness :
  basic_latin (js "Helllo") /\
  (correct toLowerCase_latin toUpperCase_latin (js "Helllo") (knows [js "hello"]) fresh
   = js "Helllo" \/
   (knows [js "hello"]
      (toLowerCase_latin
         (correct toLowerCase_latin toUpperCase_latin (js "Helllo")
            (knows [js "hello"]) fresh)) = true /\
    toLowerCase_latin
      (correct toLowerCase_latin toUpperCase_latin (js "Helllo")
         (knows [js "hello"]) fresh)
    ∈ candidates (toLowerCase_latin (js "Helllo")) /\
    toLowerCase_latin
      (correct toLowerCase_latin toUpperCase_latin (js "Helllo")
         (knows [js "hello"]) fresh) <> [] /\
    toLowerCase_latin
      (correct toLowerCase_latin toUpperCase_latin (js "Helllo")
         (knows [js "hello"]) fresh)
    <> toLowerCase_latin (js "Helllo"))).
Proof.
  assert (H : basic_latin (js "Helllo")) by repeat constructor.
  split; [exact H|].
  apply (correct_returns_known_word toLowerCase_latin toUpperCase_latin
           (js "Helllo") (knows [js "hello"]) fresh latin_case_maps_latin H).
Defined.

(** X14: the correction does not depend on the case of the token: two
    Basic Latin tokens with the same lower-case form get results with
    the same lower-case form, from any module states. *)
Theorem correct_case_insensitive
    (toLowerCase toUpperCase : jsstring -> jsstring)
    (raw1 raw2 : jsstring) (oracle : jsstring -> bool) (w w' : world) :
  latin_case_maps toLowerCase toUpperCase ->
  basic_latin raw1 -> basic_latin raw2 ->
  toLowerCase raw1 = toLowerCase raw2 ->
  toLowerCase (correct toLowerCase toUpperCase raw1 oracle w)
  = toLowerCase (correct toLowerCase toUpperCase raw2 oracle w').
Proof.
  intros Hmaps H1 H2 Heq.
  destruct raw1 as [|c1 r1].
  - assert (raw2 = []) as ->; [|reflexivity].
    destruct (Hmaps [] H1) as [Hnil _]. destruct (Hmaps raw2 H2) as [Hl _].
    rewrite Hnil, Hl in Heq. symmetry in Heq.
    now apply toLowerCase_latin_nil_inv in Heq.
  - assert (Hne2 : raw2 <> []).
    { intros ->. destruct (Hmaps [] H2) as [Hnil _].
      destruct (Hmaps (c1 :: r1) H1) as [Hl _].
      rewrite Hnil, Hl in Heq. now apply toLowerCase_latin_nil_inv in Heq. }
    rewrite (toLowerCase_correct _ _ _ _ _ Hmaps H1) by discriminate.
    rewrite (toLowerCase_correct _ _ _ _ _ Hmaps H2) by exact Hne2.
    now rewrite Heq.
Qed.

Lemma correct_case_insensitive_witness :
  basic_latin (js "HELLLO") /\ basic_latin (js "Helllo") /\
  toLowerCase_latin (js "HELLLO") = toLowerCase_latin (js "Helllo") /\
  toLowerCase_latin
    (correct toLowerCase_latin toUpperCase_latin (js "HELLLO") (knows [js "hello"]) fresh)
  = toLowerCase_latin
      (correct toLowerCase_latin toUpperCase_latin (js "Helllo") (knows [js "hello"]) fresh).
Proof.
  assert (H1 : basic_latin (js "HELLLO")) by repeat constructor.
  assert (H2 : basic_latin (js "Helllo")) by repeat constructor.
  split; [exact H1|]. split; [exact H2|]. split; [vm_compute; reflexivity|].
  apply (correct_case_insensitive toLowerCase_latin toUpperCase_latin
           (js "HELLLO") (js "Helllo") (knows [js "hello"]) fresh fresh
           latin_case_maps_latin H1 H2).
  vm_compute. reflexivity.
Defined.

(** ** Without a predicate: the cached word list *)

(** X15: while the cache is empty a call without a predicate never
    corrects: it returns [rawWord] as it is and leaves the cache empty;
    for a non-empty [rawWord] it starts one load of "/words.txt" when
    [fetch] is available, each such call another one, and none
    otherwise. *)
Theorem getCorrection_before_load
    (toLowerCase toUpperCase : jsstring -> jsstring)
    (rawWord : jsstring) (w : world) :
  wordsDataset w = None ->
  getCorrection toLowerCase toUpperCase rawWord None w
  = (rawWord,
     World None (has_fetch w)
       (fetches w ++
        if has_fetch w && negb (bool_decide (rawWord = [])) then [words_url] else [])).
Proof.
  destruct w as [d f fs]. simpl. intros ->.
  unfold getCorrection, getCorrection_over.
  destruct rawWord as [|c rest].
  - rewrite andb_false_r, app_nil_r. reflexivity.
  - rewrite (bool_decide_eq_false_2 (c :: rest = [])) by discriminate.
    cbn [negb wordsDataset has_fetch fetches].
    rewrite (bool_decide_eq_false_2 (is_Some None)) by (intros [? ?]; discriminate).
    rewrite andb_true_r. cbn [negb andb].
    assert (Hw : forall w', wordsDataset w' = None ->
                   forall x, isWord None w' x = false).
    { intros w' Hw' x. unfold isWord. now rewrite Hw'. }
    destruct f; cbn [loadWordsDataset_start wordsDataset has_fetch fetches].
    + rewrite Hw by reflexivity.
      rewrite collect_hits_nil; [reflexivity|].
      intros; now apply Hw.
    + rewrite Hw by reflexivity.
      rewrite collect_hits_nil; [now rewrite app_nil_r|].
      intros; now apply Hw.
Qed.

Lemma getCorrection_before_load_witness :
  wordsDataset fresh = None /\
  getCorrection toLowerCase_latin toUpperCase_latin (js "helllo") None fresh
  = (js "helllo", World None true [words_url]).
Proof.
  split; [reflexivity|].
  apply (getCorrection_before_load toLowerCase_latin toUpperCase_latin
           (js "helllo") fresh).
  reflexivity.
Defined.

Lemma getCorrection_cached toLowerCase toUpperCase rawWord w words :
  wordsDataset w = Some words ->
  getCorrection toLowerCase toUpperCase rawWord None w
  = (correct toLowerCase toUpperCase rawWord (set_has words) w, w).
Proof.
  intros Hw. unfold correct, getCorrection.
  rewrite getCorrection_over_oracle. unfold getCorrection_over.
  destruct rawWord as [|c rest]; [reflexivity|].
  rewrite (bool_decide_eq_true_2 (is_Some (wordsDataset w)))
    by (rewrite Hw; eauto).
  rewrite andb_false_r. cbn [andb fst].
  assert (Hiw : isWord None w = set_has words).
  { unfold isWord. now rewrite Hw. }
  rewrite Hiw.
  destruct (set_has words _); [reflexivity|].
  now destruct (collect_hits _ _).
Qed.

(** X16: once the cache is set a call without a predicate starts no
    load and leaves the module state alone; its result is that of
    [correct] with membership in the cached set as the oracle. *)
Theorem getCorrection_after_load
    (toLowerCase toUpperCase : jsstring -> jsstring)
    (rawWord : jsstring) (w : world) (words : list jsstring) :
  wordsDataset w = Some words ->
  getCorrection toLowerCase toUpperCase rawWord None w
  = (correct toLowerCase toUpperCase rawWord (set_has words) w, w) /\
  fetches (snd (getCorrection toLowerCase toUpperCase rawWord None w)) = fetches w.
Proof.
  intros Hw. rewrite (getCorrection_cached _ _ _ _ _ Hw). now split.
Qed.

Lemma getCorrection_after_load_witness :
  wordsDataset (loadWordsDataset_settle [js "hello"] fresh) = Some [js "hello"] /\
  getCorrection toLowerCase_latin toUpperCase_latin (js "Helllo") None
    (loadWordsDataset_settle [js "hello"] fresh)
  = (js "Hello", loadWordsDataset_settle [js "hello"] fresh).
Proof.
  split; [reflexivity|].
  rewrite (proj1 (getCorrection_after_load toLowerCase_latin toUpperCase_latin
                    (js "Helllo") (loadWordsDataset_settle [js "hello"] fresh)
                    [js "hello"] eq_refl)).
  vm_compute. reflexivity.
Defined.

(** ** The lines of the response *)

Lemma split_lines_from_cons line c rest :
  split_lines_from line (c :: rest) =
  if decide (c = 10%N) then line :: split_lines_from [] rest
  else if decide (c = 13%N /\ head rest = Some 10%N)
       then split_lines_from line rest
       else split_lines_from (line ++ [c]) rest.
Proof.
  simpl. destruct (N.eqb_spec c 10) as [->|Hc10].
  - now rewrite decide_True.
  - rewrite decide_False by exact Hc10.
    destruct (N.eqb_spec c 13) as [->|Hc13].
    + destruct rest as [|d rest'].
      * rewrite decide_False; [reflexivity|]. intros [_ ?]. discriminate.
      * destruct (N.eqb_spec d 10) as [->|Hd].
        -- rewrite decide_True by now split. simpl. reflexivity.
        -- rewrite decide_False; [reflexivity|]. intros [_ [= ?]]. contradiction.
    + rewrite decide_False; [reflexivity|]. intros [? _]. contradiction.
Qed.

Lemma split_lines_from_length text : forall line,
  length (split_lines_from line text)
  = S (length (filter (fun c => c = 10%N) text)).
Proof.
  induction text as [|c rest IH]; intros line; [reflexivity|].
  rewrite split_lines_from_cons, filter_cons.
  destruct (decide (c = 10%N)) as [->|Hc]; [simpl; now rewrite IH|].
  destruct (decide _); apply IH.
Qed.

Lemma split_lines_from_no_lf text : forall line,
  10%N ∉ line ->
  Forall (fun l => 10%N ∉ l) (split_lines_from line text).
Proof.
  induction text as [|c rest IH]; intros line Hline; [now repeat constructor|].
  rewrite split_lines_from_cons.
  destruct (decide (c = 10%N)) as [->|Hc].
  - constructor; [exact Hline|]. apply IH, not_elem_of_nil.
  - destruct (decide _); apply IH; [exact Hline|].
    rewrite elem_of_app, list_elem_of_singleton. intros [?|?]; [contradiction|congruence].
Qed.

(** X17: [text.split(/\r?\n/)] yields one line more than the text has
    line feeds (a single empty line for the empty text), and no line
    contains a line feed. *)
Theorem split_lines_shape (text : jsstring) :
  length (split_lines text) = S (length (filter (fun c => c = 10%N) text)) /\
  Forall (fun l => 10%N ∉ l) (split_lines text) /\
  split_lines [] = [[]].
Proof.
  split; [apply split_lines_from_length|].
  split; [apply split_lines_from_no_lf, not_elem_of_nil|reflexivity].
Qed.

Lemma split_lines_from_scan l : forall line t,
  10%N ∉ l ->
  ~ (last l = Some 13%N /\ head t = Some 10%N) ->
  split_lines_from line (l ++ t) = split_lines_from (line ++ l) t.
Proof.
  induction l as [|c l IH]; intros line t Hlf Hcr; [now rewrite app_nil_r|].
  rewrite <- app_comm_cons, split_lines_from_cons.
  apply not_elem_of_cons in Hlf as [Hc Hlf].
  rewrite decide_False by congruence.
  rewrite decide_False.
  - rewrite IH; [now rewrite <- app_assoc|exact Hlf|].
    intros [Hl Ht]. apply Hcr. split; [|exact Ht].
    destruct l; [discriminate|exact Hl].
  - intros [-> Hhd]. destruct l as [|d l].
    + apply Hcr. now split.
    + simpl in Hhd. injection Hhd as ->. apply Hlf. left.
Qed.

Lemma split_join_lines sep l ls :
  (sep = [13%N; 10%N] \/ (sep = [10%N] /\ Forall (fun l => last l <> Some 13%N) (l :: ls))) ->
  Forall (fun l => 10%N ∉ l) (l :: ls) ->
  split_lines (join_lines sep (l :: ls)) = l :: ls.
Proof.
  intros Hsep. revert l Hsep. induction ls as [|l2 ls IH]; intros l Hsep Hlf.
  - simpl. apply Forall_cons in Hlf as [Hl _].
    unfold split_lines. rewrite <- (app_nil_r l) at 1.
    rewrite split_lines_from_scan; [reflexivity|exact Hl|].
    intros [_ ?]. discriminate.
  - apply Forall_cons in Hlf as [Hl Hlf].
    change (join_lines sep (l :: l2 :: ls))
      with (l ++ sep ++ join_lines sep (l2 :: ls)).
    unfold split_lines. rewrite split_lines_from_scan; [|exact Hl|].
    + rewrite app_nil_l.
      assert (Hrest : split_lines_from l (sep ++ join_lines sep (l2 :: ls))
                      = l :: split_lines (join_lines sep (l2 :: ls))).
      { destruct Hsep as [->|[-> _]]; reflexivity. }
      rewrite Hrest. f_equal. apply IH; [|exact Hlf].
      destruct Hsep as [->|[-> Hcr]]; [now left|right].
      split; [reflexivity|]. now apply Forall_cons in Hcr as [_ ?].
    + intros [Hlast Hhd]. destruct Hsep as [->|[-> Hcr]]; [discriminate|].
      apply Forall_cons in Hcr as [Hcr _]. contradiction.
Qed.

(** X18: splitting undoes joining, for both line endings: a non-empty
    list of lines without line feeds, joined by CR LF, splits back into
    the same lines, and so does one joined by LF alone when none of the
    lines ends with a carriage return. *)
Theorem split_lines_join (lines : list jsstring) :
  lines <> [] ->
  Forall (fun l => 10%N ∉ l) lines ->
  split_lines (join_lines [13%N; 10%N] lines) = lines /\
  (Forall (fun l => last l <> Some 13%N) lines ->
   split_lines (join_lines [10%N] lines) = lines).
Proof.
  intros Hne Hlf. destruct lines as [|l ls]; [contradiction|]. split.
  - apply split_join_lines; [now left|exact Hlf].
  - intros Hcr. apply split_join_lines; [right; now split|exact Hlf].
Qed.

Lemma split_lines_join_witness :
  [js "cat"; js "dog"] <> [] /\
  Forall (fun l => 10%N ∉ l) [js "cat"; js "dog"] /\
  split_lines (join_lines [13%N; 10%N] [js "cat"; js "dog"]) = [js "cat"; js "dog"].
Proof.
  assert (H : Forall (fun l : jsstring => 10%N ∉ l) [js "cat"; js "dog"]).
  { repeat constructor; intros Hin; vm_compute in Hin;
      repeat (apply elem_of_cons in Hin as [Hin|Hin]; [discriminate|]);
      now apply elem_of_nil in Hin. }
  split; [discriminate|]. split; [exact H|].
  assert (Hne : [js "cat"; js "dog"] <> []) by discriminate.
  exact (proj1 (split_lines_join [js "cat"; js "dog"] Hne H)).
Defined.

(** ** The cache after a load *)

Lemma elem_of_word_set words x : x ∈ foldl set_add [] words <-> x ∈ words.
Proof.
  rewrite (foldl_elem set_add (fun y v => v = y)).
  - split.
    + intros [H|(y & Hy & ->)]; [now apply elem_of_nil in H|exact Hy].
    + intros H. right. now exists x.
  - intros cs y v. apply elem_of_set_add.
Qed.

Lemma elem_of_word_entries toLowerCase trim text x :
  x ∈ word_entries toLowerCase trim text <->
  x <> [] /\ exists line, line ∈ split_lines text /\ x = toLowerCase (trim line).
Proof.
  unfold word_entries. rewrite list_elem_of_filter, list_elem_of_fmap.
  split.
  - intros [Hne (line & -> & Hl)]. split; [exact Hne|]. now exists line.
  - intros [Hne (line & Hl & ->)]. split; [exact Hne|]. now exists line.
Qed.

(** X19: when the response of a load arrives, the cache becomes the set
    of the non-empty lower-cased trimmed lines of the text: it has no
    duplicate, never holds the empty string, and replaces whatever was
    cached; the record of requests is not touched. *)
Theorem loaded_cache_content
    (toLowerCase trim : jsstring -> jsstring) (text : jsstring) (w : world) :
  exists words,
    loadWordsDataset_receive toLowerCase trim text w
    = World (Some words) (has_fetch w) (fetches w) /\
    NoDup words /\
    ([] ∉ words) /\
    forall x, x ∈ words <->
              x <> [] /\
              exists line, line ∈ split_lines text /\ x = toLowerCase (trim line).
Proof.
  exists (foldl set_add [] (word_entries toLowerCase trim text)).
  split; [reflexivity|]. split; [|split].
  - apply foldl_NoDup; [intros; now apply NoDup_set_add|apply NoDup_nil_2].
  - rewrite elem_of_word_set, elem_of_word_entries. intros [H _]. now apply H.
  - intros x. now rewrite elem_of_word_set, elem_of_word_entries.
Qed.

(** X20: a word of the list is never changed: after the response has
    arrived, a call without a predicate for a token whose lower-case
    form is the entry of some line returns the token as it is, starts no
    load and leaves the cache alone. *)
Theorem listed_word_unchanged
    (toLowerCase toUpperCase trim : jsstring -> jsstring)
    (text rawWord line : jsstring) (w : world) :
  line ∈ split_lines text ->
  toLowerCase rawWord = toLowerCase (trim line) ->
  toLowerCase rawWord <> [] ->
  let w' := loadWordsDataset_receive toLowerCase trim text w in
  getCorrection toLowerCase toUpperCase rawWord None w' = (rawWord, w').
Proof.
  intros Hline Heq Hne w'.
  rewrite (getCorrection_cached _ _ _ _
             (foldl set_add [] (word_entries toLowerCase trim text)))
    by reflexivity.
  f_equal. apply correct_of_accepted.
  unfold set_has. apply bool_decide_eq_true.
  rewrite elem_of_word_set, elem_of_word_entries.
  split; [exact Hne|]. now exists line.
Qed.

Lemma listed_word_unchanged_witness :
  js "dog" ∈ split_lines (js "cat" ++ [13%N; 10%N] ++ js "dog") /\
  toLowerCase_latin (js "Dog") = toLowerCase_latin (js "dog") /\
  toLowerCase_latin (js "Dog") <> [] /\
  getCorrection toLowerCase_latin toUpperCase_latin (js "Dog") None
    (loadWordsDataset_receive toLowerCase_latin (fun x => x)
       (js "cat" ++ [13%N; 10%N] ++ js "dog") fresh)
  = (js "Dog",
     loadWordsDataset_receive toLowerCase_latin (fun x => x)
       (js "cat" ++ [13%N; 10%N] ++ js "dog") fresh).
Proof.
  assert (H : js "dog" ∈ split_lines (js "cat" ++ [13%N; 10%N] ++ js "dog")).
  { vm_compute. right. left. }
  split; [exact H|]. split; [vm_compute; reflexivity|].
  split; [vm_compute; discriminate|].
  apply (listed_word_unchanged toLowerCase_latin toUpperCase_latin (fun x => x)
           (js "cat" ++ [13%N; 10%N] ++ js "dog") (js "Dog") (js "dog") fresh H);
    [vm_compute; reflexivity|vm_compute; discriminate].
Defined.

(** ** How far the result is from the token *)

Lemma toLowerCase_latin_length s : length (toLowerCase_latin s) = length s.
Proof.
  unfold toLowerCase_latin. induction s as [|c s IH]; [reflexivity|].
  rewrite bind_cons, length_app, IH. unfold lower_unit.
  now destruct (_ && _).
Qed.

Lemma candidates_length lower c :
  c ∈ candidates lower -> (length c <= length lower + 1)%nat.
Proof.
  intros [Hv|[(i & Hi & ->)|[(i & x & Hi & _ & ->)|(i & x & Hi & _ & _ & ->)]]]%candidates_elem.
  - apply repeatVariants_distance in Hv as [Hv _]. lia.
  - rewrite length_app, length_take, length_drop. lia.
  - rewrite length_app, length_take. simpl. rewrite length_drop. lia.
  - rewrite length_app, length_take. simpl. rewrite length_drop. lia.
Qed.

(** X21: on Basic Latin tokens the result of [correct] is at most one
    code unit longer than the token. *)
Theorem correct_length
    (toLowerCase toUpperCase : jsstring -> jsstring)
    (rawWord : jsstring) (oracle : jsstring -> bool) (w : world) :
  latin_case_maps toLowerCase toUpperCase -> basic_latin rawWord ->
  (length (correct toLowerCase toUpperCase rawWord oracle w)
   <= length rawWord + 1)%nat.
Proof.
  intros Hmaps Hraw.
  destruct (correct_cases toLowerCase toUpperCase rawWord oracle w)
    as [[_ ->]|[(_ & _ & ->)|[(_ & _ & _ & ->)|(_ & _ & k & best & Hfm & ->)]]];
    try lia.
  destruct Hfm as (Hk%list_elem_of_lookup_2 & _).
  apply elem_of_collect_hits in Hk as (Hc & Hne & _).
  assert (Hplain : plain best).
  { apply (candidates_plain (toLowerCase rawWord)); [|exact Hc].
    destruct (Hmaps rawWord Hraw) as [-> _]. now apply toLowerCase_latin_plain. }
  destruct (preserveCase_length _ _ rawWord _ Hmaps Hplain) as [->|?];
    [|contradiction].
  apply candidates_length in Hc.
  destruct (Hmaps rawWord Hraw) as [Hl _]. rewrite Hl in Hc.
  rewrite toLowerCase_latin_length in Hc. exact Hc.
Qed.

Lemma correct_length_witness :
  basic_latin (js "ct") /\
  (length (correct toLowerCase_latin toUpperCase_latin (js "ct") (knows [js "cat"]) fresh)
   <= length (js "ct") + 1)%nat.
Proof.
  assert (H : basic_latin (js "ct")) by repeat constructor.
  split; [exact H|].
  apply (correct_length toLowerCase_latin toUpperCase_latin
           (js "ct") (knows [js "cat"]) fresh latin_case_maps_latin H).
Defined.
